(** * The stand-up facilitator front end: join page and meeting room

    A shallow embedding of the two React components of the front end,
    [JoinMeetingPage.js] and [MeetingRoom.js].  Each handler of a component
    becomes a function from the component's state (its [useState] cells and
    [useRef] cells) to the state after the handler has run, together with the
    effects it performed on the outside world (alerts, console output,
    requests, SDK calls, navigation).  Whatever the outside world answers (a
    response, a rejected promise) is an explicit argument of the handler. *)

From Stdlib Require Import String Ascii NArith.
From stdpp Require Import base option list gmap.

Local Open Scope N_scope.

(** ** JavaScript strings *)

Module JS.

(** A JavaScript string is a sequence of UTF-16 code units. *)
Definition js_string : Type := list N.

(** Literals of the source, which are all ASCII. *)
Definition str (s : string) : js_string :=
  N_of_ascii <$> list_ascii_of_string s.

(** A string is falsy exactly when it is empty. *)
Definition truthy (s : js_string) : bool :=
  match s with [] => false | _ :: _ => true end.

(** [a || b] on strings where [a] may be [null] or [undefined]. *)
Definition or_else (a : option js_string) (b : js_string) : js_string :=
  match a with
  | Some s => if truthy s then s else b
  | None => b
  end.

Definition between (lo hi c : N) : bool := (lo <=? c) && (c <=? hi).

(** The code units [String.prototype.trim] strips: ECMAScript's WhiteSpace
    and LineTerminator productions. *)
Definition is_white_space (c : N) : bool :=
  between 0x09 0x0D c || (c =? 0x20) || (c =? 0xA0) || (c =? 0x1680)
  || between 0x2000 0x200A c || (c =? 0x2028) || (c =? 0x2029)
  || (c =? 0x202F) || (c =? 0x205F) || (c =? 0x3000) || (c =? 0xFEFF).

Fixpoint trim_start (s : js_string) : js_string :=
  match s with
  | [] => []
  | c :: rest => if is_white_space c then trim_start rest else s
  end.

Definition trim_end (s : js_string) : js_string :=
  rev (trim_start (rev s)).

Definition trim (s : js_string) : js_string := trim_end (trim_start s).

(** The characters [encodeURIComponent] leaves alone. *)
Definition uri_unreserved (c : N) : bool :=
  between 0x41 0x5A c || between 0x61 0x7A c || between 0x30 0x39 c
  || (c =? 0x2D) || (c =? 0x5F) || (c =? 0x2E) || (c =? 0x21)
  || (c =? 0x7E) || (c =? 0x2A) || (c =? 0x27) || (c =? 0x28) || (c =? 0x29).

Definition is_high_surrogate (c : N) : bool := between 0xD800 0xDBFF c.
Definition is_low_surrogate (c : N) : bool := between 0xDC00 0xDFFF c.

Definition code_point (hi lo : N) : N :=
  (hi - 0xD800) * 0x400 + (lo - 0xDC00) + 0x10000.

Definition utf8 (cp : N) : list N :=
  if cp <? 0x80 then [cp]
  else if cp <? 0x800 then
    [N.lor 0xC0 (N.shiftr cp 6); N.lor 0x80 (N.land cp 0x3F)]
  else if cp <? 0x10000 then
    [N.lor 0xE0 (N.shiftr cp 12);
     N.lor 0x80 (N.land (N.shiftr cp 6) 0x3F);
     N.lor 0x80 (N.land cp 0x3F)]
  else
    [N.lor 0xF0 (N.shiftr cp 18);
     N.lor 0x80 (N.land (N.shiftr cp 12) 0x3F);
     N.lor 0x80 (N.land (N.shiftr cp 6) 0x3F);
     N.lor 0x80 (N.land cp 0x3F)].

Definition hex_digit (d : N) : N :=
  if d <? 10 then 0x30 + d else 0x41 + (d - 10).

Definition percent (byte : N) : js_string :=
  [0x25; hex_digit (byte / 16); hex_digit (byte mod 16)].

Definition percent_encode (cp : N) : js_string :=
  concat (percent <$> utf8 cp).

(** [encodeURIComponent]: [None] stands for the [URIError] thrown on a lone
    surrogate. *)
Fixpoint encodeURIComponent (s : js_string) : option js_string :=
  match s with
  | [] => Some []
  | c :: rest =>
      if uri_unreserved c then cons c <$> encodeURIComponent rest
      else if is_low_surrogate c then None
      else if is_high_surrogate c then
        match rest with
        | d :: rest' =>
            if is_low_surrogate d
            then app (percent_encode (code_point c d)) <$> encodeURIComponent rest'
            else None
        | [] => None
        end
      else app (percent_encode c) <$> encodeURIComponent rest
  end.

(** A string all of whose code units are white space. *)
Definition blank (s : js_string) : bool := forallb is_white_space s.

End JS.

Import JS.

(** ** The join page, [JoinMeetingPage.js] *)

Module JoinMeetingPage.

(** The participant record of a validation reply. *)
Record Participant := {
  p_name : js_string;
  isReturning : bool;
  project : option js_string;
  role : option js_string
}.

(** The body of the reply of [/api/validate-participant]. *)
Record ValidationResult := {
  valid : bool;
  message : js_string;
  participant : option Participant
}.

(** The body of the reply of [/api/meeting-info]. *)
Record MeetingInfo := {
  roomName : option js_string;
  status : option js_string;
  agentActive : bool
}.

(** The [useState] cells of the component. *)
Record State := {
  name : js_string;
  isValidating : bool;
  validationResult : option ValidationResult;
  meetingInfo : option MeetingInfo;
  isLoading : bool
}.

Definition initial : State :=
  {| name := []; isValidating := false; validationResult := None;
     meetingInfo := None; isLoading := true |}.

Definition setName (v : js_string) (st : State) : State :=
  {| name := v; isValidating := isValidating st;
     validationResult := validationResult st;
     meetingInfo := meetingInfo st; isLoading := isLoading st |}.

Definition setIsValidating (v : bool) (st : State) : State :=
  {| name := name st; isValidating := v;
     validationResult := validationResult st;
     meetingInfo := meetingInfo st; isLoading := isLoading st |}.

Definition setValidationResult (v : option ValidationResult) (st : State) : State :=
  {| name := name st; isValidating := isValidating st;
     validationResult := v;
     meetingInfo := meetingInfo st; isLoading := isLoading st |}.

Definition setMeetingInfo (v : option MeetingInfo) (st : State) : State :=
  {| name := name st; isValidating := isValidating st;
     validationResult := validationResult st;
     meetingInfo := v; isLoading := isLoading st |}.

Definition setIsLoading (v : bool) (st : State) : State :=
  {| name := name st; isValidating := isValidating st;
     validationResult := validationResult st;
     meetingInfo := meetingInfo st; isLoading := v |}.

(** What a handler does to the outside world. *)
Inductive effect :=
| Alert (msg : js_string)
| ConsoleError (msg : js_string)
| Fetch (method url : js_string) (body : list (js_string * js_string))
| Navigate (href : js_string)
| Uncaught (error : js_string).

Definition is_fetch (e : effect) : bool :=
  match e with Fetch _ _ _ => true | _ => false end.

Definition is_navigate (e : effect) : bool :=
  match e with Navigate _ => true | _ => false end.

(** What comes back from [fetch] followed by [response.json()]: either of
    the two promises rejects, or the parsed body is there. *)
Inductive reply (A : Type) :=
| Rejected
| Json (body : A).
Arguments Rejected {A}.
Arguments Json {A} body.

Definition meeting_info_request : effect :=
  Fetch (str "GET") (str "http://localhost:5000/api/meeting-info") [].

Definition fetchMeetingInfo (r : reply MeetingInfo) (st : State)
  : State * list effect :=
  match r with
  | Json data =>
      (setIsLoading false (setMeetingInfo (Some data) st),
       [meeting_info_request])
  | Rejected =>
      (setIsLoading false st,
       [meeting_info_request;
        ConsoleError (str "Failed to fetch meeting info:")])
  end.

Definition validation_request (nm : js_string) : effect :=
  Fetch (str "POST") (str "http://localhost:5000/api/validate-participant")
        [(str "name", trim nm)].

(** [validateParticipant] up to its first [await]: either it has returned,
    or the request is out and the component shows the in-flight state. *)
Inductive suspended :=
| Returned (st : State) (out : list effect)
| Awaiting (st : State) (out : list effect).

Definition validateParticipant_begin (st : State) : suspended :=
  if negb (truthy (trim (name st))) then
    Returned st [Alert (str "Please enter your name")]
  else
    Awaiting (setIsValidating true st) [validation_request (name st)].

(** The rest of [validateParticipant], once the request has settled. *)
Definition validateParticipant_resume (r : reply ValidationResult) (st : State)
  : State * list effect :=
  match r with
  | Json result =>
      (setIsValidating false (setValidationResult (Some result) st), [])
  | Rejected =>
      (setIsValidating false st,
       [ConsoleError (str "Validation failed:");
        Alert (str "Failed to validate participant. Please try again.")])
  end.

Definition validateParticipant (r : reply ValidationResult) (st : State)
  : State * list effect :=
  match validateParticipant_begin st with
  | Returned st' out => (st', out)
  | Awaiting st' out =>
      let '(st'', out') := validateParticipant_resume r st' in
      (st'', out ++ out')
  end.

(** [validationResult?.valid] *)
Definition has_valid_result (st : State) : bool :=
  match validationResult st with
  | Some r => valid r
  | None => false
  end.

Definition default_room : js_string := str "daily-standup-room".

(** [meetingInfo?.roomName || 'daily-standup-room'] *)
Definition room_of (mi : option MeetingInfo) : js_string :=
  or_else (mi ≫= roomName) default_room.

Definition meeting_url (encoded_name room : js_string) : js_string :=
  str "/meeting?name=" ++ encoded_name ++ str "&room=" ++ room.

Definition joinMeeting (r : reply ValidationResult) (st : State)
  : State * list effect :=
  if negb (has_valid_result st) then
    validateParticipant r st
  else
    match validationResult st ≫= participant with
    | None => (st, [Uncaught (str "TypeError")])
    | Some p =>
        match encodeURIComponent (p_name p) with
        | None => (st, [Uncaught (str "URIError")])
        | Some enc => (st, [Navigate (meeting_url enc (room_of (meetingInfo st)))])
        end
    end.

(** [meetingInfo?.status !== 'active'] *)
Definition not_active (mi : option MeetingInfo) : bool :=
  negb (bool_decide (mi ≫= status = Some (str "active"))).

(** The [disabled] attribute of the join button. *)
Definition join_disabled (st : State) : bool :=
  isValidating st || negb (truthy (trim (name st))) || not_active (meetingInfo st).

(** *** Sample data *)

Definition dana : Participant :=
  {| p_name := str "Dana"; isReturning := false; project := None; role := None |}.

Definition dana_valid : ValidationResult :=
  {| valid := true; message := str "Welcome"; participant := Some dana |}.

Definition standup_active : MeetingInfo :=
  {| roomName := Some (str "standup"); status := Some (str "active");
     agentActive := true |}.

(** The page once the meeting information is in and "Dana" is typed. *)
Definition dana_typed : State :=
  setName (str "Dana")
    (fetchMeetingInfo (Json standup_active) initial).1.

(** Navigation within the invocation that validates: whenever [joinMeeting]
    runs without a valid result and the validation it triggers comes back
    valid, that same run navigates to the room view with the validated
    name and the room. *)
Definition navigates_in_validating_invocation : Prop :=
  ∀ (st : State) (result : ValidationResult) (p : Participant) (enc : js_string),
    has_valid_result st = false →
    truthy (trim (name st)) = true →
    valid result = true →
    participant result = Some p →
    encodeURIComponent (p_name p) = Some enc →
    Navigate (meeting_url enc (room_of (meetingInfo st)))
      ∈ (joinMeeting (Json result) st).2.

(** *** The page's controls *)

(** [onKeyPress] of the name field: [e.key === 'Enter' && joinMeeting()]. *)
Definition onKeyPress (key : js_string) (r : reply ValidationResult) (st : State)
  : State * list effect :=
  if bool_decide (key = str "Enter") then joinMeeting r st else (st, []).

(** [onClick] of the join button; a disabled button gets no click. *)
Definition onClick (r : reply ValidationResult) (st : State)
  : State * list effect :=
  if join_disabled st then (st, []) else joinMeeting r st.

(** What the user can do on the page once it is loaded: type in the name
    field ([onChange] stores the field's value), press a key in it, click
    the button.  A reply comes with each action that may send the validation
    request. *)
Inductive action :=
| TypeName (value : js_string)
| KeyPress (key : js_string) (r : reply ValidationResult)
| Click (r : reply ValidationResult).

Definition is_key_press (a : action) : bool :=
  match a with KeyPress _ _ => true | _ => false end.

Definition perform (a : action) (st : State) : State * list effect :=
  match a with
  | TypeName value => (setName value st, [])
  | KeyPress key r => onKeyPress key r st
  | Click r => onClick r st
  end.

Fixpoint perform_all (acts : list action) (st : State) : State * list effect :=
  match acts with
  | [] => (st, [])
  | a :: rest =>
      let '(st', out) := perform a st in
      let '(st'', out') := perform_all rest st' in
      (st'', out ++ out')
  end.

(** A participant whose name has a space, an apostrophe, an ampersand, a
    letter outside ASCII and a character outside the basic plane. *)
Definition zoe : Participant :=
  {| p_name := str "Zo" ++ [0xEB] ++ str " O'Neil & co " ++ [0xD83D; 0xDE00];
     isReturning := true; project := None; role := None |}.

Definition zoe_valid : ValidationResult :=
  {| valid := true; message := str "Welcome back"; participant := Some zoe |}.

(** A meeting whose room identifier has an ampersand in it. *)
Definition research_active : MeetingInfo :=
  {| roomName := Some (str "R&D"); status := Some (str "active");
     agentActive := false |}.

End JoinMeetingPage.

(** ** The meeting room, [MeetingRoom.js] *)

Module MeetingRoom.

(** A remote participant handle of the SDK; [sid] tells two handles of one
    identity apart. *)
Record RemoteParticipant := {
  identity : js_string;
  sid : nat
}.

Inductive TrackKind := Video | Audio.

Record Track := {
  kind : TrackKind;
  track_id : nat
}.

(** A media element.  [parent] is the id of the node the element has been
    appended to; an element with no parent is not in the document.
    [source] is the track attached to it. *)
Record Element := {
  tag : TrackKind;
  autoplay : bool;
  playsInline : bool;
  muted : bool;
  source : option nat;
  parent : option js_string
}.

(** The [useState] cells, the [useRef] cells and the media elements the
    component has created or rendered.  An element is referred to by its
    position in [document]; [remoteVideosRef] is the object used as a map
    from identity to video element (identities are taken not to be names
    that every object inherits, such as "constructor"). *)
Record State := {
  isConnected : bool;
  isConnecting : bool;
  participants : list RemoteParticipant;
  localParticipant : option nat;
  isAudioEnabled : bool;
  isVideoEnabled : bool;
  isSpeakerEnabled : bool;
  error : option js_string;
  connectionStatus : js_string;
  roomRef : option nat;
  localVideoRef : option nat;
  remoteVideosRef : gmap js_string nat;
  document : list Element
}.

Definition initial : State :=
  {| isConnected := false; isConnecting := false; participants := [];
     localParticipant := None; isAudioEnabled := true;
     isVideoEnabled := true; isSpeakerEnabled := true; error := None;
     connectionStatus := str "Initializing..."; roomRef := None;
     localVideoRef := None; remoteVideosRef := ∅; document := [] |}.

Definition setIsConnected (v : bool) (st : State) : State :=
  {| isConnected := v;
     isConnecting := isConnecting st;
     participants := participants st;
     localParticipant := localParticipant st;
     isAudioEnabled := isAudioEnabled st;
     isVideoEnabled := isVideoEnabled st;
     isSpeakerEnabled := isSpeakerEnabled st;
     error := error st;
     connectionStatus := connectionStatus st;
     roomRef := roomRef st;
     localVideoRef := localVideoRef st;
     remoteVideosRef := remoteVideosRef st;
     document := document st |}.

Definition setIsConnecting (v : bool) (st : State) : State :=
  {| isConnected := isConnected st;
     isConnecting := v;
     participants := participants st;
     localParticipant := localParticipant st;
     isAudioEnabled := isAudioEnabled st;
     isVideoEnabled := isVideoEnabled st;
     isSpeakerEnabled := isSpeakerEnabled st;
     error := error st;
     connectionStatus := connectionStatus st;
     roomRef := roomRef st;
     localVideoRef := localVideoRef st;
     remoteVideosRef := remoteVideosRef st;
     document := document st |}.

Definition setParticipants (v : list RemoteParticipant) (st : State) : State :=
  {| isConnected := isConnected st;
     isConnecting := isConnecting st;
     participants := v;
     localParticipant := localParticipant st;
     isAudioEnabled := isAudioEnabled st;
     isVideoEnabled := isVideoEnabled st;
     isSpeakerEnabled := isSpeakerEnabled st;
     error := error st;
     connectionStatus := connectionStatus st;
     roomRef := roomRef st;
     localVideoRef := localVideoRef st;
     remoteVideosRef := remoteVideosRef st;
     document := document st |}.

Definition setLocalParticipant (v : option nat) (st : State) : State :=
  {| isConnected := isConnected st;
     isConnecting := isConnecting st;
     participants := participants st;
     localParticipant := v;
     isAudioEnabled := isAudioEnabled st;
     isVideoEnabled := isVideoEnabled st;
     isSpeakerEnabled := isSpeakerEnabled st;
     error := error st;
     connectionStatus := connectionStatus st;
     roomRef := roomRef st;
     localVideoRef := localVideoRef st;
     remoteVideosRef := remoteVideosRef st;
     document := document st |}.

Definition setIsAudioEnabled (v : bool) (st : State) : State :=
  {| isConnected := isConnected st;
     isConnecting := isConnecting st;
     participants := participants st;
     localParticipant := localParticipant st;
     isAudioEnabled := v;
     isVideoEnabled := isVideoEnabled st;
     isSpeakerEnabled := isSpeakerEnabled st;
     error := error st;
     connectionStatus := connectionStatus st;
     roomRef := roomRef st;
     localVideoRef := localVideoRef st;
     remoteVideosRef := remoteVideosRef st;
     document := document st |}.

Definition setIsVideoEnabled (v : bool) (st : State) : State :=
  {| isConnected := isConnected st;
     isConnecting := isConnecting st;
     participants := participants st;
     localParticipant := localParticipant st;
     isAudioEnabled := isAudioEnabled st;
     isVideoEnabled := v;
     isSpeakerEnabled := isSpeakerEnabled st;
     error := error st;
     connectionStatus := connectionStatus st;
     roomRef := roomRef st;
     localVideoRef := localVideoRef st;
     remoteVideosRef := remoteVideosRef st;
     document := document st |}.

Definition setIsSpeakerEnabled (v : bool) (st : State) : State :=
  {| isConnected := isConnected st;
     isConnecting := isConnecting st;
     participants := participants st;
     localParticipant := localParticipant st;
     isAudioEnabled := isAudioEnabled st;
     isVideoEnabled := isVideoEnabled st;
     isSpeakerEnabled := v;
     error := error st;
     connectionStatus := connectionStatus st;
     roomRef := roomRef st;
     localVideoRef := localVideoRef st;
     remoteVideosRef := remoteVideosRef st;
     document := document st |}.

Definition setError (v : option js_string) (st : State) : State :=
  {| isConnected := isConnected st;
     isConnecting := isConnecting st;
     participants := participants st;
     localParticipant := localParticipant st;
     isAudioEnabled := isAudioEnabled st;
     isVideoEnabled := isVideoEnabled st;
     isSpeakerEnabled := isSpeakerEnabled st;
     error := v;
     connectionStatus := connectionStatus st;
     roomRef := roomRef st;
     localVideoRef := localVideoRef st;
     remoteVideosRef := remoteVideosRef st;
     document := document st |}.

Definition setConnectionStatus (v : js_string) (st : State) : State :=
  {| isConnected := isConnected st;
     isConnecting := isConnecting st;
     participants := participants st;
     localParticipant := localParticipant st;
     isAudioEnabled := isAudioEnabled st;
     isVideoEnabled := isVideoEnabled st;
     isSpeakerEnabled := isSpeakerEnabled st;
     error := error st;
     connectionStatus := v;
     roomRef := roomRef st;
     localVideoRef := localVideoRef st;
     remoteVideosRef := remoteVideosRef st;
     document := document st |}.

Definition set_roomRef (v : option nat) (st : State) : State :=
  {| isConnected := isConnected st;
     isConnecting := isConnecting st;
     participants := participants st;
     localParticipant := localParticipant st;
     isAudioEnabled := isAudioEnabled st;
     isVideoEnabled := isVideoEnabled st;
     isSpeakerEnabled := isSpeakerEnabled st;
     error := error st;
     connectionStatus := connectionStatus st;
     roomRef := v;
     localVideoRef := localVideoRef st;
     remoteVideosRef := remoteVideosRef st;
     document := document st |}.

Definition set_remoteVideosRef (v : gmap js_string nat) (st : State) : State :=
  {| isConnected := isConnected st;
     isConnecting := isConnecting st;
     participants := participants st;
     localParticipant := localParticipant st;
     isAudioEnabled := isAudioEnabled st;
     isVideoEnabled := isVideoEnabled st;
     isSpeakerEnabled := isSpeakerEnabled st;
     error := error st;
     connectionStatus := connectionStatus st;
     roomRef := roomRef st;
     localVideoRef := localVideoRef st;
     remoteVideosRef := v;
     document := document st |}.

Definition set_document (v : list Element) (st : State) : State :=
  {| isConnected := isConnected st;
     isConnecting := isConnecting st;
     participants := participants st;
     localParticipant := localParticipant st;
     isAudioEnabled := isAudioEnabled st;
     isVideoEnabled := isVideoEnabled st;
     isSpeakerEnabled := isSpeakerEnabled st;
     error := error st;
     connectionStatus := connectionStatus st;
     roomRef := roomRef st;
     localVideoRef := localVideoRef st;
     remoteVideosRef := remoteVideosRef st;
     document := v |}.

(** What a handler does to the outside world. *)
Inductive effect :=
| ConsoleLog (msg : js_string)
| ConsoleError (msg : js_string)
| Fetch (method url : js_string) (body : list (js_string * js_string))
| Connect (room : nat) (url token : js_string)
| Disconnect (room : nat)
| EnableCameraAndMicrophone (room : nat)
| SetMicrophoneEnabled (room : nat) (on : bool)
| SetCameraEnabled (room : nat) (on : bool)
| Navigate (href : js_string).

Definition is_fetch (e : effect) : bool :=
  match e with Fetch _ _ _ => true | _ => false end.

(** *** Statements that may throw

    A block of statements takes the state and gives back how it completed,
    the state it left and the effects it performed, in order. *)
Inductive completion (A : Type) :=
| Normal (a : A)
| Throw (msg : js_string).
Arguments Normal {A} a.
Arguments Throw {A} msg.

Definition M (A : Type) : Type := State → completion A * State * list effect.

Definition ret {A} (a : A) : M A := λ st, (Normal a, st, []).

Definition bind {A B} (m : M A) (k : A → M B) : M B := λ st,
  match m st with
  | (Normal a, st', out) =>
      let '(c, st'', out') := k a st' in (c, st'', out ++ out')
  | (Throw msg, st', out) => (Throw msg, st', out)
  end.

Definition throw {A} (msg : js_string) : M A := λ st, (Throw msg, st, []).

Definition update (f : State → State) : M unit := λ st, (Normal (), f st, []).

Definition emit (e : effect) : M unit := λ st, (Normal (), st, [e]).

Definition read {A} (f : State → A) : M A := λ st, (Normal (f st), st, []).

(** [try { body } catch (err) { handler(err.message) }] *)
Definition try_catch (body : M unit) (handler : js_string → M unit) : M unit :=
  λ st,
  match body st with
  | (Normal a, st', out) => (Normal a, st', out)
  | (Throw msg, st', out) =>
      let '(c, st'', out') := handler msg st' in (c, st'', out ++ out')
  end.

#[export] Instance M_ret : MRet M := @ret.
#[export] Instance M_bind : MBind M := λ A B k m, bind m k.

Definition when (b : bool) (m : M unit) : M unit := if b then m else ret ().

(** The state a block leaves, and the effects it performed. *)
Definition state_after {A} (r : completion A * State * list effect) : State :=
  r.1.2.
Definition effects_of {A} (r : completion A * State * list effect) : list effect :=
  r.2.

(** A promise of the SDK or of the network, once settled. *)
Inductive settled :=
| Fulfilled
| Failed (msg : js_string).

Definition await (p : settled) : M unit :=
  match p with
  | Fulfilled => ret ()
  | Failed msg => throw msg
  end.

(** *** The listeners registered on the room *)

Inductive RoomEvent :=
| Connected
| Disconnected
| ParticipantConnected (participant : RemoteParticipant)
| ParticipantDisconnected (participant : RemoteParticipant)
| TrackSubscribed (track : Track) (participant : RemoteParticipant)
| TrackUnsubscribed (track : Track) (participant : RemoteParticipant).

(** [document.getElementById(`participant-${identity}`)]: the node exists
    when the participant grid is rendered and lists that identity. *)
Definition container_exists (id : js_string) (st : State) : bool :=
  match error st with
  | Some _ => false
  | None => bool_decide (id ∈ identity <$> participants st)
  end.

(** [element.remove()] *)
Definition remove (e : Element) : Element :=
  {| tag := tag e; autoplay := autoplay e; playsInline := playsInline e;
     muted := muted e; source := source e; parent := None |}.

(** [element.muted = b] *)
Definition set_muted (b : bool) (e : Element) : Element :=
  {| tag := tag e; autoplay := autoplay e; playsInline := playsInline e;
     muted := b; source := source e; parent := parent e |}.

(** [track.attach(element)] *)
Definition attach (t : nat) (e : Element) : Element :=
  {| tag := tag e; autoplay := autoplay e; playsInline := playsInline e;
     muted := muted e; source := Some t; parent := parent e |}.

(** [track.detach()] takes the track off every element it is attached to. *)
Definition detach (t : nat) (e : Element) : Element :=
  if bool_decide (source e = Some t) then
    {| tag := tag e; autoplay := autoplay e; playsInline := playsInline e;
       muted := muted e; source := None; parent := parent e |}
  else e.

Definition in_document (e : Element) : bool :=
  match parent e with Some _ => true | None => false end.

Definition is_audio (e : Element) : bool :=
  match tag e with Audio => true | Video => false end.

Definition track_subscribed (track : Track) (p : RemoteParticipant) (st : State)
  : State :=
  match kind track with
  | Video =>
      let videoElement :=
        {| tag := Video; autoplay := true; playsInline := true; muted := true;
           source := Some (track_id track);
           parent := if container_exists (identity p) st
                     then Some (str "participant-" ++ identity p) else None |} in
      set_remoteVideosRef
        (<[identity p := length (document st)]> (remoteVideosRef st))
        (set_document (document st ++ [videoElement]) st)
  | Audio =>
      let audioElement :=
        {| tag := Audio; autoplay := true; playsInline := false; muted := false;
           source := Some (track_id track); parent := None |} in
      set_document (document st ++ [audioElement]) st
  end.

Definition track_unsubscribed (track : Track) (p : RemoteParticipant) (st : State)
  : State :=
  let st1 := set_document (detach (track_id track) <$> document st) st in
  match remoteVideosRef st1 !! identity p with
  | Some h =>
      set_remoteVideosRef (delete (identity p) (remoteVideosRef st1))
        (set_document (alter remove h (document st1)) st1)
  | None => st1
  end.

Definition kind_name (k : TrackKind) : js_string :=
  match k with Video => str "video" | Audio => str "audio" end.

(** The listener of each room event, for the room [room]. *)
Definition on (room : nat) (ev : RoomEvent) : M unit :=
  match ev with
  | Connected =>
      emit (ConsoleLog (str "Connected to room"));;
      update (setIsConnected true);;
      update (setIsConnecting false);;
      update (setConnectionStatus (str "Connected"));;
      update (setLocalParticipant (Some room))
  | Disconnected =>
      emit (ConsoleLog (str "Disconnected from room"));;
      update (setIsConnected false);;
      update (setConnectionStatus (str "Disconnected"))
  | ParticipantConnected participant =>
      emit (ConsoleLog (str "Participant connected: " ++ identity participant));;
      update (λ st, setParticipants (participants st ++ [participant]) st)
  | ParticipantDisconnected participant =>
      emit (ConsoleLog (str "Participant disconnected: " ++ identity participant));;
      update (λ st,
        setParticipants
          (filter (λ p, identity p ≠ identity participant) (participants st)) st)
  | TrackSubscribed track participant =>
      emit (ConsoleLog (str "Track subscribed: " ++ kind_name (kind track)
                        ++ str " " ++ identity participant));;
      update (track_subscribed track participant)
  | TrackUnsubscribed track participant =>
      emit (ConsoleLog (str "Track unsubscribed: " ++ kind_name (kind track)
                        ++ str " " ++ identity participant));;
      update (track_unsubscribed track participant)
  end.

(** The listeners run one after the other, in the order of delivery. *)
Fixpoint deliver (room : nat) (evs : list RoomEvent) : M unit :=
  match evs with
  | [] => ret ()
  | ev :: rest => on room ev;; deliver room rest
  end.

(** *** The page's address and the outside world *)

(** The query parameters of [window.location.search]. *)
Record Location := {
  param_name : option js_string;
  param_room : option js_string
}.

Definition participantName (loc : Location) : js_string :=
  or_else (param_name loc) [].

Definition roomName (loc : Location) : js_string :=
  or_else (param_room loc) (str "daily-standup-room").

(** [!participantName || participantName.trim() === ''] *)
Definition name_missing (loc : Location) : bool :=
  negb (truthy (participantName loc))
  || bool_decide (trim (participantName loc) = []).

(** The body of a token response, read by [response.json()]. *)
Inductive token_body :=
| NotJson (msg : js_string)
| TokenData (url token : js_string).

(** How the token request settles: [fetch] rejects, or a response arrives
    with its [ok] flag. *)
Inductive token_reply :=
| Unreachable (msg : js_string)
| Response (ok : bool) (body : token_body).

(** Everything the outside world decides during [connectToRoom]. *)
Record World := {
  token : token_reply;
  sdk_import : settled;
  new_room : nat;
  connect_events : list RoomEvent;
  connected : settled;
  media_enabled : settled;
  videoTracks : list (option nat)
}.

Definition token_request (loc : Location) : effect :=
  Fetch (str "POST") (str "http://localhost:5000/api/generate-token")
        [(str "name", trim (participantName loc)); (str "roomName", roomName loc)].

Definition fetch_token (w : World) : M (js_string * js_string) :=
  match token w with
  | Unreachable msg => throw msg
  | Response ok body =>
      if negb ok then throw (str "Failed to get access token")
      else match body with
           | NotJson msg => throw msg
           | TokenData url tok => mret (url, tok)
           end
  end.

(** The local video is attached when the surface is mounted and the local
    participant has a video publication; [track?.attach] skips a
    publication without track. *)
Definition attach_local_video (w : World) (st : State) : State :=
  match localVideoRef st, videoTracks w with
  | Some h, Some t :: _ => set_document (alter (attach t) h (document st)) st
  | _, _ => st
  end.

Definition connectToRoom (loc : Location) (w : World) : M unit :=
  try_catch
    (update (setIsConnecting true);;
     update (setConnectionStatus (str "Getting access token..."));;
     when (name_missing loc) (throw (str "Participant name is required"));;
     emit (token_request loc);;
     tokenData ← fetch_token w;
     update (setConnectionStatus (str "Connecting to meeting room..."));;
     await (sdk_import w);;
     let room := new_room w in
     update (set_roomRef (Some room));;
     emit (Connect room tokenData.1 tokenData.2);;
     deliver room (connect_events w);;
     await (connected w);;
     emit (EnableCameraAndMicrophone room);;
     await (media_enabled w);;
     update (attach_local_video w))
    (λ msg,
     emit (ConsoleError (str "Failed to connect to room: " ++ msg));;
     update (setError (Some msg));;
     update (setIsConnecting false);;
     update (setConnectionStatus (str "Connection failed"))).

Definition disconnectFromRoom : M unit :=
  current ← read roomRef;
  match current with
  | Some room =>
      emit (Disconnect room);;
      update (set_roomRef None)
  | None => mret ()
  end.

(** The effect run when the component mounts. *)
Definition mount (loc : Location) (w : World) : M unit :=
  if name_missing loc then
    update (setError (Some (str "Participant name is required")))
  else
    connectToRoom loc w.

(** The clean-up of that effect; none was registered when the name was
    missing. *)
Definition unmount (loc : Location) : M unit :=
  if name_missing loc then mret () else disconnectFromRoom.

(** [toggleAudio]; [call] is how [setMicrophoneEnabled] settles. *)
Definition toggleAudio (call : settled) : M unit :=
  current ← read roomRef;
  match current with
  | None => mret ()
  | Some room =>
      enabled ← read isAudioEnabled;
      try_catch
        (emit (SetMicrophoneEnabled room (negb enabled));;
         await call;;
         update (setIsAudioEnabled (negb enabled)))
        (λ msg, emit (ConsoleError (str "Failed to toggle audio: " ++ msg)))
  end.

(** [toggleVideo]; [call] is how [setCameraEnabled] settles. *)
Definition toggleVideo (call : settled) : M unit :=
  current ← read roomRef;
  match current with
  | None => mret ()
  | Some room =>
      enabled ← read isVideoEnabled;
      try_catch
        (emit (SetCameraEnabled room (negb enabled));;
         await call;;
         update (setIsVideoEnabled (negb enabled)))
        (λ msg, emit (ConsoleError (str "Failed to toggle video: " ++ msg)))
  end.

(** [document.querySelectorAll('audio')] finds the audio elements that are
    in the document. *)
Definition selected_audio (e : Element) : bool := is_audio e && in_document e.

Definition toggleSpeaker : M unit :=
  enabled ← read isSpeakerEnabled;
  update (setIsSpeakerEnabled (negb enabled));;
  update (λ st,
    set_document
      ((λ audio, if selected_audio audio then set_muted enabled audio else audio)
         <$> document st) st).

Definition leaveRoom : M unit :=
  disconnectFromRoom;;
  emit (Navigate (str "/")).

(** The component shows the error view as soon as [error] is set. *)
Definition failed (st : State) : bool :=
  match error st with Some _ => true | None => false end.

(** *** Sample data *)

Definition neha (n : nat) : RemoteParticipant :=
  {| identity := str "neha-ai"; sid := n |}.

Definition dana_location : Location :=
  {| param_name := Some (str "Dana"); param_room := None |}.

Definition blank_location : Location :=
  {| param_name := Some [0x20; 0x09]; param_room := Some (str "standup") |}.

(** A back end that refuses the token request. *)
Definition refusing : World :=
  {| token := Response false (NotJson (str "Unexpected token"));
     sdk_import := Fulfilled; new_room := 7;
     connect_events := [Connected]; connected := Fulfilled;
     media_enabled := Fulfilled; videoTracks := [] |}.

Definition camera : Track := {| kind := Video; track_id := 1 |}.
Definition microphone : Track := {| kind := Audio; track_id := 2 |}.

(** The assistant has joined and both its tracks are subscribed. *)
Definition neha_on_screen : State :=
  state_after
    (deliver 7 [ParticipantConnected (neha 1);
                TrackSubscribed camera (neha 1);
                TrackSubscribed microphone (neha 1)] initial).

Definition is_join (ev : RoomEvent) : bool :=
  match ev with ParticipantConnected _ => true | _ => false end.

(** Upsert by identity: a run of participant-joined events never leaves two
    entries of one identity in the collection. *)
Definition joins_upsert_by_identity : Prop :=
  ∀ (room : nat) (evs : list RoomEvent) (st : State),
    forallb is_join evs = true →
    NoDup (identity <$> participants st) →
    NoDup (identity <$> participants (state_after (deliver room evs st))).

(** *** [connectToRoom] around its first [await]

    The function runs up to the token request, gives control back, and goes
    on when the request has settled; other handlers may run in between. *)

(** The statements before [await fetch(...)]. *)
Definition connect_request (loc : Location) : M unit :=
  update (setIsConnecting true);;
  update (setConnectionStatus (str "Getting access token..."));;
  when (name_missing loc) (throw (str "Participant name is required"));;
  emit (token_request loc).

(** The statements after it. *)
Definition connect_resume (w : World) : M unit :=
  tokenData ← fetch_token w;
  update (setConnectionStatus (str "Connecting to meeting room..."));;
  await (sdk_import w);;
  let room := new_room w in
  update (set_roomRef (Some room));;
  emit (Connect room tokenData.1 tokenData.2);;
  deliver room (connect_events w);;
  await (connected w);;
  emit (EnableCameraAndMicrophone room);;
  await (media_enabled w);;
  update (attach_local_video w).

(** The [catch] block. *)
Definition connect_failed (msg : js_string) : M unit :=
  emit (ConsoleError (str "Failed to connect to room: " ++ msg));;
  update (setError (Some msg));;
  update (setIsConnecting false);;
  update (setConnectionStatus (str "Connection failed")).

Inductive pending :=
| Settled (st : State) (out : list effect)
| AwaitingToken (st : State) (out : list effect).

Definition connectToRoom_begin (loc : Location) (st : State) : pending :=
  match connect_request loc st with
  | (Normal _, st', out) => AwaitingToken st' out
  | (Throw msg, st', out) =>
      let '(_, st'', out') := connect_failed msg st' in
      Settled st'' (out ++ out')
  end.

Definition connectToRoom_resume (w : World) : M unit :=
  try_catch (connect_resume w) connect_failed.

(** The message of the first step of [connectToRoom] that fails, as the
    outside world decides; [None] when every step goes through. *)
Definition first_failure (loc : Location) (w : World) : option js_string :=
  if name_missing loc then Some (str "Participant name is required")
  else match token w with
       | Unreachable msg => Some msg
       | Response false _ => Some (str "Failed to get access token")
       | Response true (NotJson msg) => Some msg
       | Response true (TokenData _ _) =>
           match sdk_import w, connected w, media_enabled w with
           | Failed msg, _, _ => Some msg
           | Fulfilled, Failed msg, _ => Some msg
           | Fulfilled, Fulfilled, Failed msg => Some msg
           | Fulfilled, Fulfilled, Fulfilled => None
           end
       end.

(** *** Everything that can happen to a mounted room view *)

Inductive action :=
| Mount (loc : Location) (w : World)
| Unmount (loc : Location)
| Event (room : nat) (ev : RoomEvent)
| ToggleAudio (call : settled)
| ToggleVideo (call : settled)
| ToggleSpeaker
| Leave.

Definition perform (a : action) : M unit :=
  match a with
  | Mount loc w => mount loc w
  | Unmount loc => unmount loc
  | Event room ev => on room ev
  | ToggleAudio call => toggleAudio call
  | ToggleVideo call => toggleVideo call
  | ToggleSpeaker => toggleSpeaker
  | Leave => leaveRoom
  end.

Fixpoint perform_all (acts : list action) : M unit :=
  match acts with
  | [] => mret ()
  | a :: rest => perform a;; perform_all rest
  end.

Definition identities (st : State) : list js_string :=
  identity <$> participants st.

(** No audio element is in the document. *)
Definition no_audio_in_document (st : State) : bool :=
  forallb (λ e, negb (selected_audio e)) (document st).

Definition is_disconnect (e : effect) : bool :=
  match e with Disconnect _ => true | _ => false end.

Definition is_log (e : effect) : bool :=
  match e with ConsoleLog _ => true | _ => false end.

(** A back end and a media service that do their part. *)
Definition obliging : World :=
  {| token := Response true (TokenData (str "wss://media.example") (str "jwt"));
     sdk_import := Fulfilled; new_room := 7;
     connect_events := [Connected]; connected := Fulfilled;
     media_enabled := Fulfilled; videoTracks := [] |}.

(** The same, but the camera and microphone are refused. *)
Definition camera_refused : World :=
  {| token := Response true (TokenData (str "wss://media.example") (str "jwt"));
     sdk_import := Fulfilled; new_room := 7;
     connect_events := [Connected]; connected := Fulfilled;
     media_enabled := Failed (str "Permission denied"); videoTracks := [] |}.

(** *** What a block keeps

    [keeps I E m]: run from a state where [I] holds, the block [m] leaves a
    state where [I] holds, however it completes, and performs only effects
    that [E] accepts. *)
Definition keeps {A} (I : State → Prop) (E : effect → bool) (m : M A) : Prop :=
  ∀ st, I st →
    I (state_after (m st)) ∧ forallb E (effects_of (m st)) = true.

(** The block always completes normally. *)
Definition completes {A} (m : M A) : Prop :=
  ∀ st, ∃ a, (m st).1.1 = Normal a.

End MeetingRoom.

(** ** From the join page to the room: the address

    [joinMeeting] assigns a reference to [window.location.href]; the room
    view reads [window.location.search] of the page that reference leads to,
    through [URLSearchParams].  What lies between is the URL parser and the
    form-urlencoded parser of the platform. *)

Module Navigation.

(** Conversion of a string to scalar values: a surrogate pair is one code
    point, a lone surrogate becomes U+FFFD. *)
Fixpoint scalar_values (s : js_string) : list N :=
  match s with
  | [] => []
  | c :: rest =>
      if is_high_surrogate c then
        match rest with
        | d :: rest' =>
            if is_low_surrogate d then code_point c d :: scalar_values rest'
            else 0xFFFD :: scalar_values rest
        | [] => [0xFFFD]
        end
      else if is_low_surrogate c then 0xFFFD :: scalar_values rest
      else c :: scalar_values rest
  end.

(** A scalar value as UTF-16 code units. *)
Definition utf16 (cp : N) : js_string :=
  if cp <? 0x10000 then [cp]
  else [0xD800 + (cp - 0x10000) / 0x400; 0xDC00 + (cp - 0x10000) mod 0x400].

Definition utf8_encode (s : js_string) : list N :=
  concat (utf8 <$> scalar_values s).

(** *** The URL parser, for a reference made of a path, a query and a
    fragment *)

Definition c0_control_or_space (c : N) : bool := c <=? 0x20.

Definition tab_or_newline (c : N) : bool :=
  (c =? 0x09) || (c =? 0x0A) || (c =? 0x0D).

Fixpoint strip_leading (l : list N) : list N :=
  match l with
  | [] => []
  | c :: rest => if c0_control_or_space c then strip_leading rest else l
  end.

Definition strip (l : list N) : list N :=
  rev (strip_leading (rev (strip_leading l))).

Fixpoint until_fragment (l : list N) : list N :=
  match l with
  | [] => []
  | c :: rest => if c =? 0x23 then [] else c :: until_fragment rest
  end.

(** The query of the reference: what follows the first [?], when no [#]
    comes before it, up to the next [#]. *)
Fixpoint raw_query (l : list N) : option (list N) :=
  match l with
  | [] => None
  | c :: rest =>
      if c =? 0x3F then Some (until_fragment rest)
      else if c =? 0x23 then None
      else raw_query rest
  end.

(** The code points the parser percent-encodes in the query of an http(s)
    address. *)
Definition in_query_set (c : N) : bool :=
  (c <=? 0x20) || (c =? 0x22) || (c =? 0x23) || (c =? 0x27) || (c =? 0x3C)
  || (c =? 0x3E) || (0x7E <? c).

Definition query_encode (c : N) : js_string :=
  if in_query_set c then percent_encode c else [c].

(** [window.location.search] of the page [href] leads to. *)
Definition search (href : js_string) : js_string :=
  let input :=
    filter (λ c, tab_or_newline c = false) (strip (scalar_values href)) in
  match raw_query input with
  | None | Some [] => []
  | Some query => 0x3F :: concat (query_encode <$> query)
  end.

(** *** [URLSearchParams] *)

Fixpoint split_on (sep : N) (l : list N) : list (list N) :=
  match l with
  | [] => [[]]
  | b :: rest =>
      if b =? sep then [] :: split_on sep rest
      else match split_on sep rest with
           | first :: others => (b :: first) :: others
           | [] => [[b]]
           end
  end.

(** A sequence cut at its first [=]. *)
Fixpoint split_pair (l : list N) : list N * list N :=
  match l with
  | [] => ([], [])
  | b :: rest =>
      if b =? 0x3D then ([], rest)
      else let '(name, value) := split_pair rest in (b :: name, value)
  end.

Definition plus_to_space (b : N) : N := if b =? 0x2B then 0x20 else b.

Definition unhex (b : N) : option N :=
  if between 0x30 0x39 b then Some (b - 0x30)
  else if between 0x41 0x46 b then Some (b - 0x41 + 10)
  else if between 0x61 0x66 b then Some (b - 0x61 + 10)
  else None.

Fixpoint percent_decode (bs : list N) : list N :=
  match bs with
  | [] => []
  | b :: rest =>
      if b =? 0x25 then
        match rest with
        | h :: l :: rest' =>
            match unhex h, unhex l with
            | Some hi, Some lo => (16 * hi + lo) :: percent_decode rest'
            | _, _ => b :: percent_decode rest
            end
        | _ => b :: percent_decode rest
        end
      else b :: percent_decode rest
  end.

(** The UTF-8 decoder: the code point under construction, the number of
    bytes still needed, and the bounds for the next byte. *)
Record decoder := {
  partial : N;
  needed : N;
  lower : N;
  upper : N
}.

Definition idle : decoder :=
  {| partial := 0; needed := 0; lower := 0x80; upper := 0xBF |}.

(** A byte met while no code point is under construction. *)
Definition lead (b : N) : list N * decoder :=
  if b <=? 0x7F then ([b], idle)
  else if between 0xC2 0xDF b then
    ([], {| partial := N.land b 0x1F; needed := 1; lower := 0x80; upper := 0xBF |})
  else if between 0xE0 0xEF b then
    ([], {| partial := N.land b 0xF; needed := 2;
            lower := if b =? 0xE0 then 0xA0 else 0x80;
            upper := if b =? 0xED then 0x9F else 0xBF |})
  else if between 0xF0 0xF4 b then
    ([], {| partial := N.land b 0x7; needed := 3;
            lower := if b =? 0xF0 then 0x90 else 0x80;
            upper := if b =? 0xF4 then 0x8F else 0xBF |})
  else ([0xFFFD], idle).

(** One byte: the scalar values it completes, and the decoder after it.  A
    byte out of bounds ends the sequence in U+FFFD and is read again as a
    lead byte. *)
Definition feed (d : decoder) (b : N) : list N * decoder :=
  if needed d =? 0 then lead b
  else if between (lower d) (upper d) b then
    let cp := N.lor (N.shiftl (partial d) 6) (N.land b 0x3F) in
    if needed d =? 1 then ([cp], idle)
    else ([], {| partial := cp; needed := needed d - 1;
                 lower := 0x80; upper := 0xBF |})
  else let '(out, d') := lead b in (0xFFFD :: out, d').

Fixpoint utf8_run (d : decoder) (bs : list N) : list N * decoder :=
  match bs with
  | [] => ([], d)
  | b :: rest =>
      let '(out, d') := feed d b in
      let '(out', d'') := utf8_run d' rest in
      (out ++ out', d'')
  end.

Definition utf8_decode (bs : list N) : js_string :=
  let '(out, d) := utf8_run idle bs in
  concat (utf16 <$> (out ++ if needed d =? 0 then [] else [0xFFFD])).

Definition decode_component (bs : list N) : js_string :=
  utf8_decode (percent_decode (plus_to_space <$> bs)).

Definition parse_query (search : js_string) : list (js_string * js_string) :=
  let body :=
    match search with
    | c :: rest => if c =? 0x3F then rest else search
    | [] => []
    end in
  (λ bytes, let '(name, value) := split_pair bytes in
            (decode_component name, decode_component value))
    <$> filter (λ bytes, bytes ≠ []) (split_on 0x26 (utf8_encode body)).

(** [URLSearchParams.prototype.get]: the value of the first pair of that
    name, or [null]. *)
Fixpoint get (key : js_string) (params : list (js_string * js_string))
  : option js_string :=
  match params with
  | [] => None
  | (name, value) :: rest =>
      if bool_decide (name = key) then Some value else get key rest
  end.

(** The address the room view reads its parameters from. *)
Definition location_of (href : js_string) : MeetingRoom.Location :=
  let urlParams := parse_query (search href) in
  {| MeetingRoom.param_name := get (str "name") urlParams;
     MeetingRoom.param_room := get (str "room") urlParams |}.

(** *** Checking a property of every number below a power of two *)

Fixpoint all_below (depth : nat) (base : N) (P : N → bool) : bool :=
  match depth with
  | O => P base
  | S d => all_below d base P && all_below d (base + 2 ^ N.of_nat d) P
  end.

Definition is_scalar (cp : N) : bool :=
  (cp <? 0x110000) && negb (between 0xD800 0xDFFF cp).

(** The UTF-8 bytes of a scalar value are bytes, and the decoder reads them
    back as that scalar value and is idle again. *)
Definition utf8_reads_back (cp : N) : bool :=
  negb (is_scalar cp)
  || (forallb (λ b, b <? 256) (utf8 cp)
      && match utf8_run idle (utf8 cp) with
         | ([cp'], d) =>
             (cp' =? cp) && (partial d =? 0) && (needed d =? 0)
             && (lower d =? 0x80) && (upper d =? 0xBF)
         | _ => false
         end).

End Navigation.

(** * Properties *)

(** ** Strings *)

Example trim_dana : trim (str "  Dana Lee	 ") = str "Dana Lee".
Proof. reflexivity. Qed.

Example encode_dana :
  encodeURIComponent (str "Dana Lee & co") = Some (str "Dana%20Lee%20%26%20co").
Proof. reflexivity. Qed.

Example encode_e_acute : encodeURIComponent [0xE9] = Some (str "%C3%A9").
Proof. reflexivity. Qed.

Example encode_emoji : encodeURIComponent [0xD83D; 0xDE00] = Some (str "%F0%9F%98%80").
Proof. reflexivity. Qed.

Example encode_lone_surrogate : encodeURIComponent [0xD83D; 0x41] = None.
Proof. reflexivity. Qed.

Lemma trim_start_blank (s : js_string) : blank s = true → trim_start s = [].
Proof.
  induction s as [|c s IH]; simpl; [done|].
  intros [Hc Hs]%andb_prop. rewrite Hc. by apply IH.
Qed.

Lemma trim_blank (s : js_string) : blank s = true → trim s = [].
Proof. intros H. unfold trim. by rewrite (trim_start_blank s H). Qed.

Lemma not_truthy_nil (s : js_string) : negb (truthy s) = true ↔ s = [].
Proof. by destruct s. Qed.

(** ** The join page *)

Section JoinPage.
Import JoinMeetingPage.

Lemma validateParticipant_begin_blank (st : State) :
  blank (name st) = true →
  validateParticipant_begin st = Returned st [Alert (str "Please enter your name")].
Proof.
  intros H. unfold validateParticipant_begin. by rewrite (trim_blank _ H).
Qed.

Lemma validateParticipant_no_navigation (r : reply ValidationResult) (st : State) :
  forallb (λ e, negb (is_navigate e)) (validateParticipant r st).2 = true.
Proof.
  unfold validateParticipant, validateParticipant_begin.
  destruct (negb (truthy (trim (name st)))); [done|].
  by destruct r.
Qed.

(** C3. For every name that is empty or made of white space only,
    [validateParticipant] issues no request and leaves the stored
    validation result as it was (it only raises the alert). *)
Theorem validateParticipant_blank_name (r : reply ValidationResult) (st : State) :
  blank (name st) = true →
  filter (λ e, is_fetch e = true) (validateParticipant r st).2 = []
  ∧ validationResult (validateParticipant r st).1 = validationResult st.
Proof.
  intros H. unfold validateParticipant.
  by rewrite (validateParticipant_begin_blank st H).
Qed.

Lemma validateParticipant_blank_name_witness :
  blank (name (setName [0x20; 0x09; 0xA0] dana_typed)) = true
  ∧ filter (λ e, is_fetch e = true)
      (validateParticipant (Json dana_valid)
         (setName [0x20; 0x09; 0xA0] dana_typed)).2 = []
  ∧ validationResult
      (validateParticipant (Json dana_valid)
         (setName [0x20; 0x09; 0xA0] dana_typed)).1 = None.
Proof.
  split; [reflexivity|].
  apply (validateParticipant_blank_name (Json dana_valid)
           (setName [0x20; 0x09; 0xA0] dana_typed)).
  reflexivity.
Defined.

(** C8. The join button is disabled exactly when a validation is in flight,
    or the trimmed name is empty, or the meeting information does not say
    the meeting is active; so with status "inactive" it is disabled
    whatever the name and the validation state are. *)
Theorem join_disabled_spec (st : State) :
  (join_disabled st = true ↔
     isValidating st = true
     ∨ trim (name st) = []
     ∨ meetingInfo st ≫= status ≠ Some (str "active"))
  ∧ (meetingInfo st ≫= status = Some (str "inactive") → join_disabled st = true).
Proof.
  assert (Hiff : join_disabled st = true ↔
     isValidating st = true
     ∨ trim (name st) = []
     ∨ meetingInfo st ≫= status ≠ Some (str "active")).
  { unfold join_disabled, not_active.
    rewrite !orb_true_iff, not_truthy_nil, negb_true_iff, bool_decide_eq_false.
    tauto. }
  split; [exact Hiff|].
  intros H. apply Hiff. right; right. rewrite H. discriminate.
Qed.

(** While the validation request is out, the button is disabled. *)
Lemma join_disabled_in_flight (st st' : State) (out : list effect) :
  validateParticipant_begin st = Awaiting st' out → join_disabled st' = true.
Proof.
  unfold validateParticipant_begin.
  destruct (negb (truthy (trim (name st)))); [done|].
  intros [= <- _]. done.
Qed.

(** C2, as stated, fails: with "Dana" typed and no validation result yet,
    a valid reply is stored but the run ends without navigating. *)
Lemma joinMeeting_validating_run_stays :
  ¬ navigates_in_validating_invocation.
Proof.
  intros H.
  specialize (H dana_typed dana_valid dana (str "Dana")
                eq_refl eq_refl eq_refl eq_refl eq_refl).
  vm_compute in H.
  apply list_elem_of_In in H. simpl in H.
  destruct H as [H|[]]. discriminate H.
Qed.

(** C2, amended. A run of [joinMeeting] without a valid result is a run of
    [validateParticipant] and does not navigate, whatever the reply; when the
    reply is valid it is stored, and the next run navigates to the room view
    with the encoded validated name and the room of the meeting information,
    or the default room when there is none. *)
Theorem joinMeeting_validates_then_joins (st : State) :
  has_valid_result st = false →
  (∀ r : reply ValidationResult,
     joinMeeting r st = validateParticipant r st
     ∧ filter (λ e, is_navigate e = true) (joinMeeting r st).2 = [])
  ∧ (∀ (result : ValidationResult) (p : Participant) (enc : js_string)
       (r : reply ValidationResult),
       truthy (trim (name st)) = true →
       valid result = true →
       participant result = Some p →
       encodeURIComponent (p_name p) = Some enc →
       let st' := (joinMeeting (Json result) st).1 in
       validationResult st' = Some result
       ∧ joinMeeting r st' =
           (st', [Navigate (str "/meeting?name=" ++ enc ++ str "&room=" ++
                    match meetingInfo st ≫= roomName with
                    | Some (c :: room) => c :: room
                    | _ => str "daily-standup-room"
                    end)])).
Proof.
  intros Hnone.
  assert (Hjoin : ∀ r, joinMeeting r st = validateParticipant r st).
  { intros r. unfold joinMeeting. by rewrite Hnone. }
  split.
  { intros r. split; [apply Hjoin|]. rewrite Hjoin.
    pose proof (validateParticipant_no_navigation r st) as Hquiet.
    induction (validateParticipant r st).2 as [|e out IH]; [done|].
    simpl in Hquiet. apply andb_prop in Hquiet as [He Hout].
    rewrite filter_cons_False; [by apply IH|].
    by destruct (is_navigate e). }
  intros result p enc r Hname Hvalid Hp Henc st'.
  assert (Hst' : st' = setIsValidating false
                   (setValidationResult (Some result) (setIsValidating true st))).
  { unfold st'. rewrite Hjoin.
    unfold validateParticipant, validateParticipant_begin.
    by rewrite Hname. }
  split; [by rewrite Hst'|].
  unfold joinMeeting, has_valid_result. rewrite Hst'. simpl.
  rewrite Hvalid, Hp. simpl. rewrite Henc.
  unfold meeting_url, room_of, or_else.
  by destruct (meetingInfo st ≫= roomName) as [[|c room]|].
Qed.

Lemma joinMeeting_validates_then_joins_witness :
  has_valid_result dana_typed = false
  ∧ filter (λ e, is_navigate e = true) (joinMeeting (Json dana_valid) dana_typed).2 = []
  ∧ joinMeeting Rejected (joinMeeting (Json dana_valid) dana_typed).1 =
      ((joinMeeting (Json dana_valid) dana_typed).1,
       [Navigate (str "/meeting?name=Dana&room=standup")]).
Proof.
  split; [reflexivity|].
  pose proof (joinMeeting_validates_then_joins dana_typed eq_refl) as [Hstay Hgo].
  split.
  - exact (proj2 (Hstay (Json dana_valid))).
  - exact (proj2 (Hgo dana_valid dana (str "Dana") Rejected
                    eq_refl eq_refl eq_refl eq_refl)).
Defined.

(** With no room in the meeting information the default room is used. *)
Example joinMeeting_default_room :
  joinMeeting Rejected
    (setValidationResult (Some dana_valid) (setName (str "Dana") initial))
  = (setValidationResult (Some dana_valid) (setName (str "Dana") initial),
     [Navigate (str "/meeting?name=Dana&room=daily-standup-room")]).
Proof. reflexivity. Qed.

End JoinPage.

(** ** The meeting room *)

Section Room.
Import MeetingRoom.

(** Unfolds the plumbing of statement blocks, leaving the state functions. *)
Ltac run :=
  cbv [mbind mret M_bind M_ret bind ret throw update emit read try_catch
       when await state_after effects_of fetch_token] in *.

(** C1 fails on the code: the participant-joined listener appends.  Two
    joined events of one identity leave two entries of that identity. *)
Theorem participant_joined_twice_listed_twice :
  participants
    (state_after
       (deliver 0 [ParticipantConnected (neha 1); ParticipantConnected (neha 2)]
          initial))
  = [neha 1; neha 2]
  ∧ ¬ joins_upsert_by_identity.
Proof.
  split; [reflexivity|].
  intros H.
  specialize (H 0%nat [ParticipantConnected (neha 1); ParticipantConnected (neha 2)]
                initial eq_refl).
  vm_compute in H.
  specialize (H (NoDup_nil_2 (A:=js_string))).
  apply NoDup_cons_1_1 in H. apply H. left.
Qed.

(** Every joined event adds one entry, whatever is listed already. *)
Lemma participant_joined_appends (room : nat) (p : RemoteParticipant) (st : State) :
  participants (state_after (on room (ParticipantConnected p) st))
  = participants st ++ [p].
Proof. reflexivity. Qed.

(** C4. When the call to [setMicrophoneEnabled] fails, the displayed
    microphone state stays as it was; it changes only when there is a room
    and the call succeeds, and then it flips. *)
Theorem toggleAudio_flips_only_on_success (call : settled) (st : State) :
  (∀ msg, call = Failed msg →
     isAudioEnabled (state_after (toggleAudio call st)) = isAudioEnabled st)
  ∧ (isAudioEnabled (state_after (toggleAudio call st)) ≠ isAudioEnabled st ↔
       call = Fulfilled ∧ is_Some (roomRef st))
  ∧ (isAudioEnabled (state_after (toggleAudio call st)) ≠ isAudioEnabled st →
       isAudioEnabled (state_after (toggleAudio call st)) = negb (isAudioEnabled st)).
Proof.
  unfold toggleAudio. run.
  destruct (roomRef st) as [room|] eqn:Hroom, call as [|msg']; simpl.
  all: repeat split; try done.
  all: try (intros []; done).
  intros _. by destruct (isAudioEnabled st).
Qed.

(** C5. [disconnectFromRoom] never throws; it disconnects the open room and
    clears the reference, does nothing at all when there is no room, and
    therefore a second call right after the first does nothing. *)
Theorem disconnectFromRoom_twice (st : State) :
  (disconnectFromRoom st).1.1 = Normal ()
  ∧ roomRef (state_after (disconnectFromRoom st)) = None
  ∧ (∀ room, roomRef st = Some room →
       effects_of (disconnectFromRoom st) = [Disconnect room])
  ∧ (roomRef st = None → disconnectFromRoom st = (Normal (), st, []))
  ∧ disconnectFromRoom (state_after (disconnectFromRoom st))
    = (Normal (), state_after (disconnectFromRoom st), []).
Proof.
  unfold disconnectFromRoom. run.
  destruct (roomRef st) as [room|] eqn:Hroom; simpl.
  - repeat split; try done. by intros ? [= ->].
  - rewrite Hroom. repeat split; done.
Qed.

(** C6. When the token request is made and answered with a response that is
    not ok, the room view fails with the message "Failed to get access
    token", no room is created, and a reference that was unset stays unset. *)
Theorem connectToRoom_token_refused
    (loc : Location) (w : World) (body : token_body) (st : State) :
  name_missing loc = false →
  token w = Response false body →
  roomRef st = None →
  let st' := state_after (connectToRoom loc w st) in
  error st' = Some (str "Failed to get access token")
  ∧ failed st' = true
  ∧ connectionStatus st' = str "Connection failed"
  ∧ isConnecting st' = false
  ∧ roomRef st' = None
  ∧ effects_of (connectToRoom loc w st)
    = [token_request loc;
       ConsoleError (str "Failed to connect to room: Failed to get access token")].
Proof.
  intros Hname Htoken Hroom.
  unfold connectToRoom. run. rewrite Hname, Htoken. simpl.
  repeat split; done.
Qed.

Lemma connectToRoom_token_refused_witness :
  error (state_after (connectToRoom dana_location refusing initial))
    = Some (str "Failed to get access token")
  ∧ roomRef (state_after (connectToRoom dana_location refusing initial)) = None.
Proof.
  pose proof (connectToRoom_token_refused dana_location refusing
                (NotJson (str "Unexpected token")) initial
                eq_refl eq_refl eq_refl) as (Herr & _ & _ & _ & Hroom & _).
  split; [exact Herr | exact Hroom].
Defined.

(** C7. Entered with an empty or white-space-only name (or none), the room
    view fails at once with "Participant name is required" and does
    nothing else: no request is made. *)
Theorem mount_without_name (loc : Location) (w : World) (st : State) :
  blank (participantName loc) = true →
  error (state_after (mount loc w st)) = Some (str "Participant name is required")
  ∧ failed (state_after (mount loc w st)) = true
  ∧ effects_of (mount loc w st) = [].
Proof.
  intros H. unfold mount, name_missing.
  rewrite (trim_blank _ H), bool_decide_eq_true_2, orb_true_r by done.
  run. simpl. done.
Qed.

Lemma mount_without_name_witness :
  blank (participantName blank_location) = true
  ∧ failed (state_after (mount blank_location refusing initial)) = true
  ∧ effects_of (mount blank_location refusing initial) = [].
Proof.
  split; [reflexivity|].
  pose proof (mount_without_name blank_location refusing initial eq_refl)
    as (_ & Hfailed & Hquiet).
  split; [exact Hfailed | exact Hquiet].
Defined.

(** With a name, mounting does request a token. *)
Lemma mount_with_name_requests_token (loc : Location) (w : World) (st : State) :
  name_missing loc = false →
  token_request loc ∈ effects_of (mount loc w st).
Proof.
  intros H. unfold mount, connectToRoom. rewrite H. run. simpl.
  destruct (token w) as [msg|[] [msg|url tok]]; simpl; try set_solver.
  destruct (sdk_import w); simpl; [|set_solver].
  destruct (deliver _ _ _) as [[[] ?] ?]; simpl; [|set_solver].
  destruct (connected w); simpl; [|set_solver].
  destruct (media_enabled w); simpl; set_solver.
Qed.

(** C9. The track-withdrawn listener does not look at the kind of the
    track: whenever the participant has a video element in the registry,
    that element is taken out of the document and its registry entry is
    deleted, also when the withdrawn track is an audio track. *)
Theorem track_unsubscribed_removes_video
    (room : nat) (track : Track) (p : RemoteParticipant) (st : State)
    (h : nat) (video : Element) :
  remoteVideosRef st !! identity p = Some h →
  document st !! h = Some video →
  let st' := state_after (on room (TrackUnsubscribed track p) st) in
  remoteVideosRef st' !! identity p = None
  ∧ document st' !! h = Some (remove (detach (track_id track) video))
  ∧ in_document <$> document st' !! h = Some false.
Proof.
  intros Hreg Hdoc st'.
  assert (Hst' : st' =
    set_remoteVideosRef (delete (identity p) (remoteVideosRef st))
      (set_document
         (alter remove h (detach (track_id track) <$> document st))
         (set_document (detach (track_id track) <$> document st) st))).
  { unfold st'. run. simpl. unfold track_unsubscribed. simpl. by rewrite Hreg. }
  rewrite Hst'. simpl.
  rewrite lookup_delete_eq, list_lookup_alter_eq, list_lookup_fmap, Hdoc.
  done.
Qed.

Lemma track_unsubscribed_removes_video_witness :
  kind microphone = Audio
  ∧ remoteVideosRef neha_on_screen !! identity (neha 1) = Some 0%nat
  ∧ remoteVideosRef
      (state_after (on 7 (TrackUnsubscribed microphone (neha 1)) neha_on_screen))
      !! identity (neha 1) = None
  ∧ in_document <$>
      document
        (state_after (on 7 (TrackUnsubscribed microphone (neha 1)) neha_on_screen))
      !! 0%nat = Some false.
Proof.
  split; [reflexivity|].
  assert (Hreg : remoteVideosRef neha_on_screen !! identity (neha 1) = Some 0%nat)
    by (vm_compute; reflexivity).
  split; [exact Hreg|].
  pose proof (track_unsubscribed_removes_video 7 microphone (neha 1)
                neha_on_screen 0
                {| tag := Video; autoplay := true; playsInline := true;
                   muted := true; source := Some 1%nat;
                   parent := Some (str "participant-neha-ai") |}
                Hreg eq_refl) as (Hgone & _ & Hout).
  split; [exact Hgone | exact Hout].
Defined.

(** C10. [toggleSpeaker] flips the speaker flag and sets [muted] of every
    audio element in the document to the flag's value before the toggle;
    afterwards each of them is muted exactly when the speaker is off. *)
Theorem toggleSpeaker_mutes_audio (st : State) :
  let st' := state_after (toggleSpeaker st) in
  isSpeakerEnabled st' = negb (isSpeakerEnabled st)
  ∧ (∀ i audio, document st !! i = Some audio → selected_audio audio = true →
       document st' !! i = Some (set_muted (isSpeakerEnabled st) audio))
  ∧ (∀ i e, document st !! i = Some e → selected_audio e = false →
       document st' !! i = Some e)
  ∧ (∀ audio, audio ∈ document st' → selected_audio audio = true →
       muted audio = negb (isSpeakerEnabled st')).
Proof.
  intros st'.
  assert (Hst' : st' =
    set_document
      ((λ audio, if selected_audio audio
                 then set_muted (isSpeakerEnabled st) audio else audio)
         <$> document st)
      (setIsSpeakerEnabled (negb (isSpeakerEnabled st)) st)) by reflexivity.
  rewrite Hst'. simpl. split; [done|]. split; [|split].
  - intros i audio Hi Hsel. rewrite list_lookup_fmap, Hi. simpl. by rewrite Hsel.
  - intros i e Hi Hsel. rewrite list_lookup_fmap, Hi. simpl. by rewrite Hsel.
  - intros audio [e [-> He]]%list_elem_of_fmap Hsel.
    rewrite negb_involutive.
    destruct (selected_audio e) eqn:Hse; [done|]. congruence.
Qed.

End Room.

(** ** More on strings *)

Section Strings.

Lemma trim_start_split (s : js_string) :
  ∃ ws, s = ws ++ trim_start s
        ∧ blank ws = true
        ∧ (is_white_space <$> head (trim_start s)) ≠ Some true.
Proof.
  induction s as [|c s (ws & Hs & Hws & Hhead)]; simpl.
  - by exists [].
  - destruct (is_white_space c) eqn:Hc.
    + exists (c :: ws). simpl. rewrite Hc, Hws. split; [by f_equal|done].
    + exists []. simpl. rewrite Hc. done.
Qed.

Lemma blank_app (a b : js_string) : blank (a ++ b) = blank a && blank b.
Proof. apply forallb_app. Qed.

Lemma blank_rev (s : js_string) : blank (rev s) = blank s.
Proof.
  induction s as [|c s IH]; [done|]. simpl.
  rewrite blank_app, IH. simpl. by rewrite andb_true_r, andb_comm.
Qed.

Lemma last_rev (s : js_string) : last (rev s) = head s.
Proof. destruct s as [|c s]; [done|]. simpl. apply last_snoc. Qed.

Lemma head_rev (s : js_string) : head (rev s) = last s.
Proof. by rewrite <- (rev_involutive s) at 2; rewrite last_rev. Qed.

(** [trim] cuts a string into leading white space, the result, and trailing
    white space, and the result neither begins nor ends with white space. *)
Lemma trim_cuts_white_space (s : js_string) :
  ∃ before after,
    s = before ++ trim s ++ after
    ∧ blank before = true
    ∧ blank after = true
    ∧ (is_white_space <$> head (trim s)) ≠ Some true
    ∧ (is_white_space <$> last (trim s)) ≠ Some true.
Proof.
  destruct (trim_start_split s) as (before & Hs & Hbefore & Hhead).
  destruct (trim_start_split (rev (trim_start s))) as (retfa & Hr & Hafter & Hlast).
  exists before, (rev retfa).
  assert (Hmid : trim_start s = trim s ++ rev retfa).
  { unfold trim, trim_end. rewrite <- rev_app_distr, <- Hr. by rewrite rev_involutive. }
  split; [by rewrite <- Hmid|].
  split; [done|]. split; [by rewrite blank_rev|]. split.
  - destruct (trim s) as [|c t] eqn:Ht; [done|].
    rewrite Hmid in Hhead. exact Hhead.
  - unfold trim, trim_end. rewrite last_rev. exact Hlast.
Qed.

(** [trim] gives the empty string exactly on strings of white space, the
    empty one included. *)
Lemma trim_nil_iff_blank (s : js_string) : trim s = [] ↔ blank s = true.
Proof.
  split; [|apply trim_blank].
  intros Ht. destruct (trim_cuts_white_space s) as (b & a & Hs & Hb & Ha & _).
  rewrite Hs, Ht. simpl. by rewrite blank_app, Hb, Ha.
Qed.

(** Trimming what is trimmed changes nothing. *)
Lemma trim_start_fixed (s : js_string) :
  (is_white_space <$> head s) ≠ Some true → trim_start s = s.
Proof. destruct s as [|c s]; [done|]. simpl. by destruct (is_white_space c). Qed.

Lemma trim_idempotent (s : js_string) : trim (trim s) = trim s.
Proof.
  destruct (trim_cuts_white_space s) as (_ & _ & _ & _ & _ & Hhead & Hlast).
  unfold trim at 1. rewrite (trim_start_fixed _ Hhead).
  unfold trim_end. rewrite trim_start_fixed; [apply rev_involutive|].
  rewrite head_rev. exact Hlast.
Qed.

Lemma filter_keeps_all {A} (P : A → Prop) `{∀ x, Decision (P x)} (l : list A) :
  Forall P l → filter P l = l.
Proof.
  induction 1 as [|x l Hx _ IH]; [done|]. by rewrite filter_cons_True, IH.
Qed.

Lemma filter_drops_all {A} (P : A → Prop) `{∀ x, Decision (P x)} (l : list A) :
  Forall (λ x, ¬ P x) l → filter P l = [].
Proof.
  induction 1 as [|x l Hx _ IH]; [done|]. by rewrite filter_cons_False.
Qed.

End Strings.

(** ** More on the join page *)

Section JoinPageControls.
Import JoinMeetingPage.

Lemma truthy_trim_not_blank (s : js_string) :
  truthy (trim s) = true ↔ blank s = false.
Proof.
  rewrite <- not_true_iff_false, <- trim_nil_iff_blank.
  destruct (trim s); simpl; split; congruence.
Qed.

(** With a name that is not blank, [validateParticipant] sends exactly one
    request.  It carries the typed name without the white space around it:
    a part of the name that is not empty and neither begins nor ends with
    white space.  The run ends with the in-flight flag down.  A reply that
    arrives becomes the stored result, valid or not; when the request fails
    the stored result stays and the user is alerted.  The name field and the
    meeting information are not touched. *)
Theorem validateParticipant_sends_trimmed_name
    (r : reply ValidationResult) (st : State) :
  blank (name st) = false →
  ∃ sent before after,
    filter (λ e, is_fetch e = true) (validateParticipant r st).2
      = [Fetch (str "POST") (str "http://localhost:5000/api/validate-participant")
           [(str "name", sent)]]
    ∧ name st = before ++ sent ++ after
    ∧ blank before = true ∧ blank after = true
    ∧ sent ≠ []
    ∧ (is_white_space <$> head sent) ≠ Some true
    ∧ (is_white_space <$> last sent) ≠ Some true
    ∧ isValidating (validateParticipant r st).1 = false
    ∧ name (validateParticipant r st).1 = name st
    ∧ meetingInfo (validateParticipant r st).1 = meetingInfo st
    ∧ validationResult (validateParticipant r st).1
      = match r with
        | Json result => Some result
        | Rejected => validationResult st
        end
    ∧ (r = Rejected →
       Alert (str "Failed to validate participant. Please try again.")
         ∈ (validateParticipant r st).2).
Proof.
  intros Hname%truthy_trim_not_blank.
  destruct (trim_cuts_white_space (name st))
    as (before & after & Hsplit & Hbefore & Hafter & Hhead & Hlast).
  exists (trim (name st)), before, after.
  unfold validateParticipant, validateParticipant_begin. rewrite Hname.
  split; [by destruct r|]. split; [done|]. split; [done|]. split; [done|].
  split; [by destruct (trim (name st))|]. split; [done|]. split; [done|].
  destruct r; simpl; repeat split; try done. intros _. set_solver.
Qed.

Lemma validateParticipant_sends_trimmed_name_witness :
  ∃ sent,
    filter (λ e, is_fetch e = true)
      (validateParticipant Rejected (setName (str "  Dana Lee ") dana_typed)).2
    = [Fetch (str "POST") (str "http://localhost:5000/api/validate-participant")
         [(str "name", sent)]]
    ∧ sent ≠ [].
Proof.
  destruct (validateParticipant_sends_trimmed_name Rejected
              (setName (str "  Dana Lee ") dana_typed) eq_refl)
    as (sent & _ & _ & Hreq & _ & _ & _ & Hsent & _).
  exists sent. split; [exact Hreq | exact Hsent].
Defined.

Lemma encodeURIComponent_no_surrogates (s : js_string) :
  Forall (λ c, is_high_surrogate c = false ∧ is_low_surrogate c = false) s →
  is_Some (encodeURIComponent s).
Proof.
  induction 1 as [|c s [Hhi Hlo] _ [enc IH]]; simpl; [by eexists|].
  rewrite Hhi, Hlo, IH. destruct (uri_unreserved c); by eexists.
Qed.

(** With a valid result stored, [joinMeeting] sends nothing and changes no
    state.  It navigates when the result has a participant record; a name
    without surrogate code units always encodes.  A valid result without
    participant record ends the run in a type error, with no navigation. *)
Theorem joinMeeting_with_valid_result (r : reply ValidationResult) (st : State) :
  has_valid_result st = true →
  (joinMeeting r st).1 = st
  ∧ filter (λ e, is_fetch e = true) (joinMeeting r st).2 = []
  ∧ (validationResult st ≫= participant = None →
     (joinMeeting r st).2 = [Uncaught (str "TypeError")])
  ∧ (∀ p, validationResult st ≫= participant = Some p →
       Forall (λ c, is_high_surrogate c = false ∧ is_low_surrogate c = false)
         (p_name p) →
       ∃ enc, encodeURIComponent (p_name p) = Some enc
              ∧ (joinMeeting r st).2
                = [Navigate (str "/meeting?name=" ++ enc ++ str "&room="
                             ++ room_of (meetingInfo st))]).
Proof.
  intros Hvalid. unfold joinMeeting. rewrite Hvalid. simpl.
  destruct (validationResult st ≫= participant) as [p|] eqn:Hp.
  - destruct (encodeURIComponent (p_name p)) as [enc|] eqn:Henc; simpl;
      (repeat split; try done).
    + intros ? [= <-] _. by exists enc.
    + intros ? [= <-] [? ?]%encodeURIComponent_no_surrogates. congruence.
  - repeat split; done.
Qed.

Lemma joinMeeting_with_valid_result_witness :
  (joinMeeting Rejected (setValidationResult (Some dana_valid) dana_typed)).2
  = [Navigate (str "/meeting?name=Dana&room=standup")].
Proof.
  pose proof (joinMeeting_with_valid_result Rejected
                (setValidationResult (Some dana_valid) dana_typed) eq_refl)
    as (_ & _ & _ & Hgo).
  destruct (Hgo dana eq_refl) as (enc & Henc & Hnav).
  - repeat constructor.
  - injection Henc as <-. exact Hnav.
Defined.

(** The stored result outlives the name it was given for: once a valid
    reply is stored, whatever is typed in the name field afterwards, joining
    navigates with the validated name and sends no new request. *)
Theorem edited_name_joins_as_validated
    (st : State) (result : ValidationResult) (p : Participant)
    (enc typed : js_string) (r : reply ValidationResult) :
  has_valid_result st = false →
  blank (name st) = false →
  valid result = true →
  participant result = Some p →
  encodeURIComponent (p_name p) = Some enc →
  (joinMeeting r (setName typed (joinMeeting (Json result) st).1)).2
  = [Navigate (str "/meeting?name=" ++ enc ++ str "&room="
               ++ room_of (meetingInfo st))].
Proof.
  intros Hnone Hname%truthy_trim_not_blank Hvalid Hp Henc.
  unfold joinMeeting at 2. rewrite Hnone. simpl.
  unfold validateParticipant, validateParticipant_begin. rewrite Hname. simpl.
  unfold joinMeeting, has_valid_result. simpl. rewrite Hvalid, Hp. simpl.
  by rewrite Henc.
Qed.

Lemma edited_name_joins_as_validated_witness :
  (joinMeeting Rejected
     (setName (str "Eve") (joinMeeting (Json dana_valid) dana_typed).1)).2
  = [Navigate (str "/meeting?name=Dana&room=standup")].
Proof.
  exact (edited_name_joins_as_validated dana_typed dana_valid dana (str "Dana")
           (str "Eve") Rejected eq_refl eq_refl eq_refl eq_refl eq_refl).
Defined.

Lemma validateParticipant_meetingInfo (r : reply ValidationResult) (st : State) :
  meetingInfo (validateParticipant r st).1 = meetingInfo st.
Proof.
  unfold validateParticipant, validateParticipant_begin.
  destruct (negb (truthy (trim (name st)))); [done|]. by destruct r.
Qed.

Lemma joinMeeting_meetingInfo (r : reply ValidationResult) (st : State) :
  meetingInfo (joinMeeting r st).1 = meetingInfo st.
Proof.
  unfold joinMeeting. destruct (negb (has_valid_result st)).
  - apply validateParticipant_meetingInfo.
  - destruct (validationResult st ≫= participant) as [p|]; [|done].
    by destruct (encodeURIComponent (p_name p)).
Qed.

Lemma perform_meetingInfo (a : action) (st : State) :
  meetingInfo (perform a st).1 = meetingInfo st.
Proof.
  destruct a as [v|key r|r]; simpl; [done| |].
  - unfold onKeyPress. case_bool_decide; [apply joinMeeting_meetingInfo|done].
  - unfold onClick. destruct (join_disabled st); [done|apply joinMeeting_meetingInfo].
Qed.

Lemma perform_all_meetingInfo (acts : list action) (st : State) :
  meetingInfo (perform_all acts st).1 = meetingInfo st.
Proof.
  revert st. induction acts as [|a acts IH]; intros st; simpl; [done|].
  pose proof (perform_meetingInfo a st) as Ha.
  destruct (perform a st) as [st' out]. specialize (IH st').
  destruct (perform_all acts st') as [st'' out']. simpl in *. congruence.
Qed.

(** Nothing the user does on the page changes the meeting information.  So
    when it does not say "active" (the request failed, or the meeting is
    inactive), the join button stays disabled whatever is typed, pressed or
    clicked, and without a key press nothing at all is sent or shown. *)
Theorem join_stays_disabled (acts : list action) (st : State) :
  not_active (meetingInfo st) = true →
  meetingInfo (perform_all acts st).1 = meetingInfo st
  ∧ join_disabled (perform_all acts st).1 = true
  ∧ (forallb (λ a, negb (is_key_press a)) acts = true →
     (perform_all acts st).2 = []).
Proof.
  intros Hoff. split; [apply perform_all_meetingInfo|]. split.
  - unfold join_disabled. rewrite perform_all_meetingInfo, Hoff.
    by rewrite orb_true_r.
  - revert st Hoff. induction acts as [|a acts IH]; intros st Hoff; simpl; [done|].
    intros [Ha Hacts]%andb_prop.
    assert (Hquiet : perform a st = ((perform a st).1, [])
                     ∧ not_active (meetingInfo (perform a st).1) = true).
    { rewrite perform_meetingInfo. split; [|done].
      destruct a as [v|key r|r]; simpl in *; [done|done|].
      unfold onClick, join_disabled. by rewrite Hoff, orb_true_r. }
    destruct Hquiet as [Hperf Hoff']. rewrite Hperf.
    specialize (IH _ Hoff' Hacts).
    destruct (perform_all acts (perform a st).1) as [st'' out'].
    simpl in *. by rewrite IH.
Qed.

Lemma join_stays_disabled_witness :
  join_disabled
    (perform_all [TypeName (str "Dana"); Click (Json dana_valid); Click Rejected]
       (fetchMeetingInfo Rejected initial).1).1 = true
  ∧ (perform_all [TypeName (str "Dana"); Click (Json dana_valid); Click Rejected]
       (fetchMeetingInfo Rejected initial).1).2 = [].
Proof.
  pose proof (join_stays_disabled
                [TypeName (str "Dana"); Click (Json dana_valid); Click Rejected]
                (fetchMeetingInfo Rejected initial).1 eq_refl)
    as (_ & Hoff & Hquiet).
  split; [exact Hoff | exact (Hquiet eq_refl)].
Defined.

(** The Enter key does not look at what disables the button: with a valid
    result stored, a click on the disabled button does nothing, while Enter
    in the name field navigates to the room. *)
Theorem enter_joins_while_disabled
    (st : State) (p : Participant) (enc : js_string) (r : reply ValidationResult) :
  join_disabled st = true →
  has_valid_result st = true →
  validationResult st ≫= participant = Some p →
  encodeURIComponent (p_name p) = Some enc →
  onClick r st = (st, [])
  ∧ onKeyPress (str "Enter") r st
    = (st, [Navigate (str "/meeting?name=" ++ enc ++ str "&room="
                      ++ room_of (meetingInfo st))]).
Proof.
  intros Hoff Hvalid Hp Henc. unfold onClick, onKeyPress. rewrite Hoff.
  split; [done|]. rewrite bool_decide_eq_true_2 by done.
  unfold joinMeeting. by rewrite Hvalid, Hp, Henc.
Qed.

(** The meeting-info request failed, so the button is disabled for good;
    typing a name and pressing Enter twice still leads to the default room. *)
Lemma enter_joins_while_disabled_witness :
  join_disabled
    (perform_all [TypeName (str "Dana"); KeyPress (str "Enter") (Json dana_valid)]
       (fetchMeetingInfo Rejected initial).1).1
  = true
  ∧ (onKeyPress (str "Enter") Rejected
       (perform_all [TypeName (str "Dana"); KeyPress (str "Enter") (Json dana_valid)]
          (fetchMeetingInfo Rejected initial).1).1).2
    = [Navigate (str "/meeting?name=Dana&room=daily-standup-room")].
Proof.
  split; [reflexivity|].
  exact (f_equal snd
           (proj2 (enter_joins_while_disabled
                     (perform_all
                        [TypeName (str "Dana");
                         KeyPress (str "Enter") (Json dana_valid)]
                        (fetchMeetingInfo Rejected initial).1).1
                     dana (str "Dana") Rejected
                     eq_refl eq_refl eq_refl eq_refl))).
Defined.

(** Both views take a name for missing exactly when it is blank, that is
    empty or made of white space only: the join page sends the validation
    request in every other case and no other name disables its button, and
    the room view refuses to connect in exactly that case. *)
Theorem name_missing_iff_blank :
  (∀ (r : reply ValidationResult) (st : State),
     filter (λ e, is_fetch e = true) (validateParticipant r st).2 = []
     ↔ blank (name st) = true)
  ∧ (∀ st : State,
       join_disabled st = true
       ↔ isValidating st = true ∨ blank (name st) = true
         ∨ not_active (meetingInfo st) = true)
  ∧ (∀ loc : MeetingRoom.Location,
       MeetingRoom.name_missing loc = true
       ↔ blank (MeetingRoom.participantName loc) = true).
Proof.
  split; [|split].
  - intros r st. unfold validateParticipant, validateParticipant_begin.
    destruct (blank (name st)) eqn:Hblank.
    + rewrite (trim_blank _ Hblank). done.
    + rewrite (proj2 (truthy_trim_not_blank _) Hblank). by destruct r.
  - intros st. unfold join_disabled.
    rewrite !orb_true_iff, not_truthy_nil, trim_nil_iff_blank. tauto.
  - intros loc. unfold MeetingRoom.name_missing.
    rewrite orb_true_iff, not_truthy_nil, bool_decide_eq_true, trim_nil_iff_blank.
    split; [|tauto]. intros [->|?]; done.
Qed.

End JoinPageControls.

(** ** More on the meeting room *)

Section RoomLifecycle.
Import MeetingRoom.

Ltac exec :=
  cbv [mbind mret M_bind M_ret bind ret throw update emit read try_catch
       when await state_after effects_of fetch_token] in *.

(** *** Blocks that complete *)

Lemma bind_completes {A B} (m : M A) (k : A → M B) (st : State) (a : A) :
  (m st).1.1 = Normal a →
  (m ≫= k) st
  = ((k a (state_after (m st))).1.1,
     state_after (k a (state_after (m st))),
     effects_of (m st) ++ effects_of (k a (state_after (m st)))).
Proof.
  intros Ha. exec. destruct (m st) as [[c st'] out]. simpl in *. subst c.
  by destruct (k a st') as [[c' st''] out'].
Qed.

Lemma on_completes (room : nat) (ev : RoomEvent) (st : State) :
  (on room ev st).1.1 = Normal ().
Proof. by destruct ev. Qed.

Lemma deliver_completes (room : nat) (evs : list RoomEvent) (st : State) :
  (deliver room evs st).1.1 = Normal ().
Proof.
  revert st. induction evs as [|ev evs IH]; intros st; [done|].
  change (deliver room (ev :: evs) st)
    with ((on room ev ≫= λ _, deliver room evs) st).
  rewrite (bind_completes _ _ _ _ (on_completes room ev st)). apply IH.
Qed.

Lemma deliver_cons (room : nat) (ev : RoomEvent) (evs : list RoomEvent) (st : State) :
  state_after (deliver room (ev :: evs) st)
  = state_after (deliver room evs (state_after (on room ev st))).
Proof.
  change (deliver room (ev :: evs) st)
    with ((on room ev ≫= λ _, deliver room evs) st).
  by rewrite (bind_completes _ _ _ _ (on_completes room ev st)).
Qed.

Lemma deliver_app (room : nat) (evs evs' : list RoomEvent) (st : State) :
  state_after (deliver room (evs ++ evs') st)
  = state_after (deliver room evs' (state_after (deliver room evs st))).
Proof.
  revert st. induction evs as [|ev evs IH]; intros st; [done|].
  rewrite <- app_comm_cons, !deliver_cons. apply IH.
Qed.

(** *** Participants *)

Lemma joined_participants (room : nat) (p : RemoteParticipant) (st : State) :
  participants (state_after (on room (ParticipantConnected p) st))
  = participants st ++ [p].
Proof. reflexivity. Qed.

Lemma left_participants (room : nat) (p : RemoteParticipant) (st : State) :
  participants (state_after (on room (ParticipantDisconnected p) st))
  = filter (λ q, identity q ≠ identity p) (participants st).
Proof. reflexivity. Qed.

Lemma joins_participants
    (room : nat) (joined : list RemoteParticipant) (st : State) :
  participants (state_after (deliver room (ParticipantConnected <$> joined) st))
  = participants st ++ joined.
Proof.
  revert st. induction joined as [|p joined IH]; intros st.
  - simpl. by rewrite app_nil_r.
  - rewrite fmap_cons, deliver_cons, IH, joined_participants.
    by rewrite <- app_assoc.
Qed.

(** One participant-left event takes out every entry of that identity and
    nothing else: after any number of joins under an identity that was not
    listed, a single leave brings the collection back to what it was. *)
Theorem leave_undoes_joins
    (room : nat) (joined : list RemoteParticipant) (left : RemoteParticipant)
    (st : State) :
  identity left ∉ identities st →
  Forall (λ p, identity p = identity left) joined →
  participants
    (state_after
       (deliver room
          ((ParticipantConnected <$> joined) ++ [ParticipantDisconnected left]) st))
  = participants st.
Proof.
  intros Hfresh Hsame.
  rewrite deliver_app, deliver_cons.
  change (state_after (deliver room [] ?s)) with s.
  rewrite left_participants, joins_participants, filter_app.
  rewrite (filter_drops_all _ joined), app_nil_r.
  - apply filter_keeps_all, Forall_forall. intros q Hq Heq.
    apply Hfresh. unfold identities. rewrite <- Heq.
    by apply list_elem_of_fmap_2.
  - eapply Forall_impl; [exact Hsame|]. intros q Hq Hne. by apply Hne.
Qed.

Lemma leave_undoes_joins_witness :
  participants
    (state_after
       (deliver 7
          [ParticipantConnected (neha 1); ParticipantConnected (neha 2);
           ParticipantDisconnected (neha 1)] initial))
  = [].
Proof.
  apply (leave_undoes_joins 7 [neha 1; neha 2] (neha 1) initial).
  - apply not_elem_of_nil.
  - repeat constructor.
Defined.

(** Distinct identities are kept distinct by everything but a joined event
    for an identity that is listed already, and that event always breaks it. *)
Theorem identities_stay_distinct (room : nat) (ev : RoomEvent) (st : State) :
  NoDup (identities st) →
  NoDup (identities (state_after (on room ev st)))
  ↔ ∀ p, ev = ParticipantConnected p → identity p ∉ identities st.
Proof.
  intros Hnodup. unfold identities in *. destruct ev as [| |p|p|t p|t p].
  - split; [intros _ q [=]|intros _; done].
  - split; [intros _ q [=]|intros _; done].
  - rewrite joined_participants, fmap_app. simpl. split.
    + intros Hnd q [= <-]. apply NoDup_app in Hnd as (_ & Hdisj & _).
      intros Hin. apply (Hdisj _ Hin). by left.
    + intros Hfresh. apply NoDup_app. split; [done|]. split.
      * intros i Hi [->|[]%not_elem_of_nil]%elem_of_cons.
        by apply (Hfresh p).
      * apply NoDup_singleton.
  - rewrite left_participants. split; [intros _ q [=]|intros _].
    revert Hnodup. induction (participants st) as [|q l IH]; intros Hnodup.
    { apply NoDup_nil_2. }
    simpl in Hnodup. apply NoDup_cons in Hnodup as [Hq Hl].
    destruct (decide (identity q ≠ identity p)).
    + rewrite filter_cons_True by done. simpl. apply NoDup_cons. split; [|by apply IH].
      intros [q' [Heq Hq']]%list_elem_of_fmap. apply Hq.
      apply list_elem_of_fmap. exists q'. split; [done|].
      by apply list_elem_of_filter in Hq' as [_ ?].
    + rewrite filter_cons_False by done. by apply IH.
  - split; [intros _ q [=]|intros _].
    unfold state_after; simpl. unfold track_subscribed. by destruct (kind t).
  - split; [intros _ q [=]|intros _].
    unfold state_after; simpl. unfold track_unsubscribed. simpl.
    by destruct (remoteVideosRef st !! identity p).
Qed.

Lemma identities_stay_distinct_witness :
  NoDup (identities
           (state_after (on 7 (ParticipantDisconnected (neha 1)) neha_on_screen))).
Proof.
  apply (identities_stay_distinct 7 (ParticipantDisconnected (neha 1)) neha_on_screen).
  - vm_compute. apply NoDup_singleton.
  - intros p [=].
Defined.

(** *** Tracks *)



Lemma track_subscribed_video (track : Track) (p : RemoteParticipant) (st : State) :
  kind track = Video →
  document (track_subscribed track p st)
  = document st ++
      [{| tag := Video; autoplay := true; playsInline := true; muted := true;
          source := Some (track_id track);
          parent := if container_exists (identity p) st
                    then Some (str "participant-" ++ identity p) else None |}]
  ∧ remoteVideosRef (track_subscribed track p st)
    = <[identity p := length (document st)]> (remoteVideosRef st)
  ∧ error (track_subscribed track p st) = error st
  ∧ participants (track_subscribed track p st) = participants st.
Proof. intros Hkind. unfold track_subscribed. by rewrite Hkind. Qed.

Lemma track_unsubscribed_registry (track : Track) (p : RemoteParticipant) (st : State) :
  remoteVideosRef (track_unsubscribed track p st)
  = delete (identity p) (remoteVideosRef st).
Proof.
  unfold track_unsubscribed. cbn [remoteVideosRef set_document].
  destruct (remoteVideosRef st !! identity p) eqn:Hreg; [done|].
  cbn [remoteVideosRef set_document]. by rewrite delete_id.
Qed.

Lemma track_unsubscribed_document (track : Track) (p : RemoteParticipant) (st : State) :
  document (track_unsubscribed track p st)
  = match remoteVideosRef st !! identity p with
    | Some h => alter remove h (detach (track_id track) <$> document st)
    | None => detach (track_id track) <$> document st
    end.
Proof.
  unfold track_unsubscribed. cbn [remoteVideosRef set_document].
  by destruct (remoteVideosRef st !! identity p).
Qed.

(** The registry holds one element per identity and the listener of a
    withdrawn track takes whatever is registered.  So when a participant's
    second video track arrives and then the first is withdrawn, the element
    of the second, which still carries its track, is the one taken out of the
    document, and the element of the first stays in the tile with no track. *)
Theorem first_video_withdrawn_removes_second
    (room : nat) (first second : Track) (p : RemoteParticipant) (st : State) :
  kind first = Video →
  kind second = Video →
  track_id first ≠ track_id second →
  error st = None →
  identity p ∈ identities st →
  let st' :=
    state_after
      (deliver room [TrackSubscribed first p; TrackSubscribed second p;
                     TrackUnsubscribed first p] st) in
  ∃ stays removed,
    document st' !! length (document st) = Some stays
    ∧ in_document stays = true ∧ source stays = None
    ∧ document st' !! S (length (document st)) = Some removed
    ∧ in_document removed = false ∧ source removed = Some (track_id second)
    ∧ remoteVideosRef st' !! identity p = None.
Proof.
  intros Hfirst Hsecond Hne Herr Hlisted st'.
  assert (Hst' : st' = track_unsubscribed first p
                         (track_subscribed second p (track_subscribed first p st)))
    by reflexivity.
  clearbody st'. subst st'.
  destruct (track_subscribed_video first p st Hfirst) as (Hdoc1 & Hreg1 & Herr1 & Hp1).
  destruct (track_subscribed_video second p (track_subscribed first p st) Hsecond)
    as (Hdoc2 & Hreg2 & _ & _).
  assert (Htile : ∀ s, error s = error st → participants s = participants st →
                       container_exists (identity p) s = true).
  { intros s Hs Hp. unfold container_exists. rewrite Hs, Herr, Hp.
    by apply bool_decide_eq_true_2. }
  rewrite (Htile _ eq_refl eq_refl) in Hdoc1.
  rewrite (Htile _ Herr1 Hp1), Hdoc1 in Hdoc2.
  rewrite Hdoc1, length_app, Nat.add_1_r in Hreg2. simpl in Hreg2.
  remember (str "participant-" ++ identity p) as tile eqn:Heqtile.
  rewrite track_unsubscribed_registry, track_unsubscribed_document.
  rewrite Hreg2, lookup_insert_eq, lookup_delete_eq, Hdoc2.
  rewrite !fmap_app, <- app_assoc. cbn [fmap list_fmap app].
  assert (Hoff : detach (track_id first)
                   {| tag := Video; autoplay := true; playsInline := true;
                      muted := true; source := Some (track_id first);
                      parent := Some tile |}
                 = {| tag := Video; autoplay := true; playsInline := true;
                      muted := true; source := None; parent := Some tile |}).
  { unfold detach. cbn [source]. by rewrite bool_decide_eq_true_2. }
  assert (Hon : detach (track_id first)
                  {| tag := Video; autoplay := true; playsInline := true;
                     muted := true; source := Some (track_id second);
                     parent := Some tile |}
                = {| tag := Video; autoplay := true; playsInline := true;
                     muted := true; source := Some (track_id second);
                     parent := Some tile |}).
  { unfold detach. cbn [source]. rewrite bool_decide_eq_false_2; [done|congruence]. }
  rewrite Hoff, Hon.
  eexists _, _. split.
  { rewrite list_lookup_alter_ne by lia.
    rewrite lookup_app_r by (by rewrite length_fmap).
    rewrite length_fmap, Nat.sub_diag. reflexivity. }
  split; [done|]. split; [done|]. split.
  { rewrite list_lookup_alter_eq.
    rewrite lookup_app_r by (rewrite length_fmap; lia).
    rewrite length_fmap. replace (S _ - _)%nat with 1%nat by lia. reflexivity. }
  done.
Qed.

Lemma first_video_withdrawn_removes_second_witness :
  in_document <$>
    document
      (state_after
         (deliver 7 [TrackSubscribed camera (neha 1);
                     TrackSubscribed {| kind := Video; track_id := 3 |} (neha 1);
                     TrackUnsubscribed camera (neha 1)]
            (state_after (on 7 (ParticipantConnected (neha 1)) initial))))
  = [true; false].
Proof.
  destruct (first_video_withdrawn_removes_second 7 camera
              {| kind := Video; track_id := 3 |} (neha 1)
              (state_after (on 7 (ParticipantConnected (neha 1)) initial))
              eq_refl eq_refl) as (stays & removed & _);
    [discriminate | reflexivity | by left | reflexivity].
Defined.

(** *** Reasoning about blocks *)

Section Keeps.
Context (I : State → Prop) (E : effect → bool).

Lemma keeps_ret {A} (a : A) : keeps I E (mret a).
Proof. by intros st H. Qed.

Lemma keeps_throw {A} (msg : js_string) : keeps I E (@throw A msg).
Proof. by intros st H. Qed.

Lemma keeps_read {A} (f : State → A) : keeps I E (read f).
Proof. by intros st H. Qed.

Lemma keeps_update (f : State → State) :
  (∀ st, I st → I (f st)) → keeps I E (update f).
Proof. intros Hf st H. split; [by apply Hf|done]. Qed.

Lemma keeps_emit (e : effect) : E e = true → keeps I E (emit e).
Proof. intros He st H. split; [done|]. simpl. by rewrite He. Qed.

Lemma keeps_bind {A B} (m : M A) (k : A → M B) :
  keeps I E m → (∀ a, keeps I E (k a)) → keeps I E (m ≫= k).
Proof.
  intros Hm Hk st H. destruct (Hm st H) as [Hst Hout]. exec.
  destruct (m st) as [[[a|msg] st'] out]; simpl in *; [|done].
  destruct (Hk a st' Hst) as [Hst' Hout'].
  destruct (k a st') as [[c st''] out']; simpl in *.
  split; [done|]. by rewrite forallb_app, Hout, Hout'.
Qed.

Lemma keeps_try_catch (body : M unit) (handler : js_string → M unit) :
  keeps I E body → (∀ msg, keeps I E (handler msg)) →
  keeps I E (try_catch body handler).
Proof.
  intros Hm Hk st H. destruct (Hm st H) as [Hst Hout]. exec.
  destruct (body st) as [[[a|msg] st'] out]; simpl in *; [done|].
  destruct (Hk msg st' Hst) as [Hst' Hout'].
  destruct (handler msg st') as [[c st''] out']; simpl in *.
  split; [done|]. by rewrite forallb_app, Hout, Hout'.
Qed.

Lemma keeps_when (b : bool) (m : M unit) : keeps I E m → keeps I E (when b m).
Proof. destruct b; [done|]. intros _. apply keeps_ret. Qed.

Lemma keeps_await (p : settled) : keeps I E (await p).
Proof. destruct p; [apply keeps_ret|apply keeps_throw]. Qed.

Lemma keeps_fetch_token (w : World) : keeps I E (fetch_token w).
Proof.
  unfold fetch_token. destruct (token w) as [msg|[] [msg|url tok]]; simpl;
    first [apply keeps_throw | apply keeps_ret].
Qed.

End Keeps.

Lemma completes_bind {A B} (m : M A) (k : A → M B) :
  completes m → (∀ a, completes (k a)) → completes (m ≫= k).
Proof.
  intros Hm Hk st. destruct (Hm st) as [a Ha].
  rewrite (bind_completes _ _ _ _ Ha). apply Hk.
Qed.

Lemma completes_try_catch (body : M unit) (handler : js_string → M unit) :
  (∀ msg, completes (handler msg)) → completes (try_catch body handler).
Proof.
  intros Hh st. exec. destruct (body st) as [[[a|msg] st'] out]; simpl.
  - by exists a.
  - destruct (Hh msg st') as [a Ha].
    destruct (handler msg st') as [[c st''] out']. simpl in *. by exists a.
Qed.

Lemma completes_update (f : State → State) : completes (update f).
Proof. intros st. by exists (). Qed.

Lemma completes_emit (e : effect) : completes (emit e).
Proof. intros st. by exists (). Qed.

Lemma completes_ret {A} (a : A) : completes (mret a).
Proof. intros st. by exists a. Qed.

Lemma completes_read {A} (f : State → A) : completes (read f).
Proof. intros st. by eexists. Qed.

Ltac finish :=
  repeat first
    [ apply completes_bind; [|intros ?]
    | apply completes_try_catch; intros ?
    | apply completes_update
    | apply completes_emit
    | apply completes_ret
    | apply completes_read ].

Lemma on_always_completes (room : nat) (ev : RoomEvent) : completes (on room ev).
Proof. destruct ev; simpl; finish. Qed.

Lemma disconnectFromRoom_completes : completes disconnectFromRoom.
Proof. unfold disconnectFromRoom. finish. destruct a; finish. Qed.

Lemma connectToRoom_completes (loc : Location) (w : World) :
  completes (connectToRoom loc w).
Proof. unfold connectToRoom. finish. Qed.

Lemma perform_completes (a : action) : completes (perform a).
Proof.
  destruct a as [loc w|loc|room ev|call|call| |]; simpl.
  - unfold mount. destruct (name_missing loc);
      [finish | apply connectToRoom_completes].
  - unfold unmount. destruct (name_missing loc);
      [finish | apply disconnectFromRoom_completes].
  - apply on_always_completes.
  - unfold toggleAudio. finish. destruct a; finish.
  - unfold toggleVideo. finish. destruct a; finish.
  - unfold toggleSpeaker. finish.
  - unfold leaveRoom.
    apply completes_bind; [apply disconnectFromRoom_completes|intros ?; finish].
Qed.

Ltac hold :=
  repeat first
    [ apply keeps_bind; [|intros ?]
    | apply keeps_try_catch; [|intros ?]
    | apply keeps_when
    | apply keeps_await
    | apply keeps_fetch_token
    | apply keeps_ret
    | apply keeps_throw
    | apply keeps_read
    | apply keeps_emit; reflexivity
    | apply keeps_update ].

Lemma keeps_deliver (I : State → Prop) (E : effect → bool)
    (room : nat) (evs : list RoomEvent) :
  (∀ ev, keeps I E (on room ev)) → keeps I E (deliver room evs).
Proof.
  intros Hon. induction evs as [|ev evs IH]; [apply keeps_ret|].
  change (deliver room (ev :: evs)) with (on room ev ≫= λ _, deliver room evs).
  apply keeps_bind; [apply Hon | intros _; apply IH].
Qed.

Lemma keeps_perform_all (I : State → Prop) (E : effect → bool) (acts : list action) :
  (∀ a, keeps I E (perform a)) → keeps I E (perform_all acts).
Proof.
  intros Hperform. induction acts as [|a acts IH]; [apply keeps_ret|].
  change (perform_all (a :: acts)) with (perform a ≫= λ _, perform_all acts).
  apply keeps_bind; [apply Hperform | intros _; apply IH].
Qed.

(** *** The error view is final *)




(** *** The speaker control *)

Lemma no_audio_fmap (f : Element → Element) (l : list Element) :
  (∀ e, selected_audio (f e) = true → selected_audio e = true) →
  forallb (λ e, negb (selected_audio e)) l = true →
  forallb (λ e, negb (selected_audio e)) (f <$> l) = true.
Proof.
  intros Hf. induction l as [|e l IH]; [done|].
  rewrite fmap_cons. cbn [forallb].
  intros [He Hl]%andb_prop. rewrite (IH Hl), andb_true_r.
  destruct (selected_audio (f e)) eqn:Hfe; [|done].
  by rewrite (Hf e Hfe) in He.
Qed.

Lemma no_audio_alter (f : Element → Element) (h : nat) (l : list Element) :
  (∀ e, selected_audio (f e) = true → selected_audio e = true) →
  forallb (λ e, negb (selected_audio e)) l = true →
  forallb (λ e, negb (selected_audio e)) (alter f h l) = true.
Proof.
  intros Hf. revert h. induction l as [|e l IH]; intros h; [done|].
  cbn [forallb]. intros [He Hl]%andb_prop.
  destruct h as [|h]; cbn [alter list_alter forallb].
  - rewrite Hl, andb_true_r.
    destruct (selected_audio (f e)) eqn:Hfe; [|done].
    by rewrite (Hf e Hfe) in He.
  - rewrite He. apply (IH h Hl).
Qed.

Lemma selected_detach (t : nat) (e : Element) :
  selected_audio (detach t e) = selected_audio e.
Proof. unfold detach. by case_bool_decide. Qed.

Lemma selected_remove (e : Element) : selected_audio (remove e) = false.
Proof. unfold selected_audio. simpl. apply andb_false_r. Qed.

Lemma no_audio_subscribed (track : Track) (p : RemoteParticipant) (st : State) :
  no_audio_in_document st = true →
  no_audio_in_document (track_subscribed track p st) = true.
Proof.
  unfold no_audio_in_document, track_subscribed. intros H.
  destruct (kind track); cbn [document set_document set_remoteVideosRef];
    rewrite forallb_app, H; reflexivity.
Qed.

Lemma no_audio_unsubscribed (track : Track) (p : RemoteParticipant) (st : State) :
  no_audio_in_document st = true →
  no_audio_in_document (track_unsubscribed track p st) = true.
Proof.
  unfold no_audio_in_document. intros H. rewrite track_unsubscribed_document.
  assert (Hd : forallb (λ e, negb (selected_audio e))
                 (detach (track_id track) <$> document st) = true).
  { apply no_audio_fmap; [|done]. intros e. by rewrite selected_detach. }
  destruct (remoteVideosRef st !! identity p); [|done].
  apply no_audio_alter; [|done]. intros e. by rewrite selected_remove.
Qed.

Lemma no_audio_on (room : nat) (ev : RoomEvent) :
  keeps (λ st, no_audio_in_document st = true) (λ _, true) (on room ev).
Proof.
  destruct ev; simpl; hold; try (by intros st H).
  - apply no_audio_subscribed.
  - apply no_audio_unsubscribed.
Qed.

Lemma no_audio_kept (a : action) :
  keeps (λ st, no_audio_in_document st = true) (λ _, true) (perform a).
Proof.
  destruct a as [loc w|loc|room ev|call|call| |]; simpl.
  - unfold mount, connectToRoom. destruct (name_missing loc); hold;
      try (by intros st H).
    + apply keeps_deliver, no_audio_on.
    + intros st H. unfold attach_local_video.
      destruct (localVideoRef st), (videoTracks w) as [|[]]; try done.
      unfold no_audio_in_document. cbn [document set_document].
      apply no_audio_alter; [|done]. by intros e.
  - unfold unmount, disconnectFromRoom. destruct (name_missing loc); hold.
    destruct a; hold. by intros st H.
  - apply no_audio_on.
  - unfold toggleAudio. hold. destruct a; hold. by intros st H.
  - unfold toggleVideo. hold. destruct a; hold. by intros st H.
  - unfold toggleSpeaker. hold; [by intros st H|].
    intros st H. unfold no_audio_in_document. cbn [document set_document].
    apply no_audio_fmap; [|done]. intros e.
    destruct (selected_audio e) eqn:He; [done|]. by rewrite He.
  - unfold leaveRoom, disconnectFromRoom. hold. destruct a; hold. by intros st H.
Qed.

(** The audio elements the component creates are never put in the
    document, and nothing it does puts one there.  So when no audio element
    is in the document to begin with, as on a fresh mount, none is ever
    there, and the speaker control changes no element at all: it only flips
    its own flag. *)
Theorem speaker_control_reaches_no_audio (acts : list action) (st : State) :
  no_audio_in_document st = true →
  no_audio_in_document (state_after (perform_all acts st)) = true
  ∧ document (state_after (toggleSpeaker (state_after (perform_all acts st))))
    = document (state_after (perform_all acts st))
  ∧ isSpeakerEnabled (state_after (toggleSpeaker (state_after (perform_all acts st))))
    = negb (isSpeakerEnabled (state_after (perform_all acts st))).
Proof.
  intros H.
  destruct (keeps_perform_all _ (λ _, true) acts no_audio_kept st H) as [Hkept _].
  split; [exact Hkept|]. split; [|reflexivity].
  change (((λ audio, if selected_audio audio
                     then set_muted (isSpeakerEnabled (state_after (perform_all acts st)))
                            audio
                     else audio)
             <$> document (state_after (perform_all acts st)))
          = document (state_after (perform_all acts st))).
  unfold no_audio_in_document in Hkept.
  induction (document (state_after (perform_all acts st))) as [|e l IH]; [done|].
  simpl in Hkept. apply andb_prop in Hkept as [He Hl].
  rewrite fmap_cons, (IH Hl). by destruct (selected_audio e).
Qed.

Lemma speaker_control_reaches_no_audio_witness :
  muted <$>
    document
      (state_after
         (toggleSpeaker
            (state_after
               (perform_all
                  [Mount dana_location obliging;
                   Event 7 (ParticipantConnected (neha 1));
                   Event 7 (TrackSubscribed microphone (neha 1))]
                  initial))))
  = [false].
Proof.
  rewrite (proj1 (proj2 (speaker_control_reaches_no_audio
                           [Mount dana_location obliging;
                            Event 7 (ParticipantConnected (neha 1));
                            Event 7 (TrackSubscribed microphone (neha 1))]
                           initial eq_refl))).
  reflexivity.
Defined.

(** *** Connecting *)

(** The listeners only log, and leave the error and the room reference
    alone. *)
Lemma deliver_frame (room : nat) (evs : list RoomEvent) (st : State) :
  (deliver room evs st).1.1 = Normal ()
  ∧ error (state_after (deliver room evs st)) = error st
  ∧ roomRef (state_after (deliver room evs st)) = roomRef st
  ∧ forallb is_log (effects_of (deliver room evs st)) = true.
Proof.
  split; [apply deliver_completes|].
  assert (H : keeps (λ s, error s = error st ∧ roomRef s = roomRef st) is_log
                (deliver room evs)).
  { apply keeps_deliver. intros ev. destruct ev; simpl; hold;
      try (by intros s H).
    - intros s H. unfold track_subscribed. by destruct (kind track).
    - intros s H. unfold track_unsubscribed. simpl.
      by destruct (remoteVideosRef s !! identity participant). }
  destruct (H st (conj eq_refl eq_refl)) as [[? ?] ?]. done.
Qed.

Ltac settle_deliver :=
  match goal with
  | |- context [deliver ?room ?evs ?s] =>
      let Hd := fresh "Hdeliver" in
      destruct (deliver_frame room evs s) as (? & ? & ? & ?);
      destruct (deliver room evs s) as [[? ?] ?] eqn:Hd;
      unfold state_after, effects_of in *; cbn in *; subst
  end.

Ltac fails :=
  split; [done|]; split; [done|]; split; [|intros [=]];
  intros ? [= <-]; split; [done|]; split; [done|]; try reflexivity.

(** [connectToRoom] never throws.  The error it leaves is the message of
    the first step that failed, as it came; a failure also takes the
    connecting flag down and sets the status to "Connection failed".  When
    no step fails the error is as before, the new room is referenced, and the
    room was connected with the token that came back and asked for camera
    and microphone. *)
Theorem connectToRoom_outcome (loc : Location) (w : World) (st : State) :
  (connectToRoom loc w st).1.1 = Normal ()
  ∧ error (state_after (connectToRoom loc w st))
    = match first_failure loc w with
      | Some msg => Some msg
      | None => error st
      end
  ∧ (∀ msg, first_failure loc w = Some msg →
       isConnecting (state_after (connectToRoom loc w st)) = false
       ∧ connectionStatus (state_after (connectToRoom loc w st))
         = str "Connection failed"
       ∧ last (effects_of (connectToRoom loc w st))
         = Some (ConsoleError (str "Failed to connect to room: " ++ msg)))
  ∧ (first_failure loc w = None →
       roomRef (state_after (connectToRoom loc w st)) = Some (new_room w)
       ∧ ∃ url tok,
           token w = Response true (TokenData url tok)
           ∧ Connect (new_room w) url tok ∈ effects_of (connectToRoom loc w st)
           ∧ EnableCameraAndMicrophone (new_room w)
               ∈ effects_of (connectToRoom loc w st)).
Proof.
  unfold connectToRoom, first_failure. exec.
  destruct (name_missing loc); cbn; [fails|].
  destruct (token w) as [msg|[] [msg|url tok]]; cbn; try fails.
  destruct (sdk_import w) as [|msg]; cbn; [|fails].
  settle_deliver.
  destruct (connected w) as [|msg]; cbn.
  2: { fails. rewrite app_comm_cons. apply last_snoc. }
  destruct (media_enabled w) as [|msg]; cbn.
  2: { fails. rewrite app_comm_cons. apply last_snoc. }
  split; [done|]. split.
  { unfold attach_local_video.
    by destruct (localVideoRef _), (videoTracks w) as [|[]]. }
  split; [intros ? [=]|]. intros _. split.
  { unfold attach_local_video.
    by destruct (localVideoRef _), (videoTracks w) as [|[]]. }
  exists url, tok. split; [done|]. split; [set_solver|].
  do 2 right. apply elem_of_app. right. set_solver.
Qed.

Lemma connectToRoom_no_disconnect (loc : Location) (w : World) :
  keeps (λ _, True) (λ e, negb (is_disconnect e)) (connectToRoom loc w).
Proof.
  unfold connectToRoom. hold; try done.
  apply keeps_deliver. intros ev. destruct ev; simpl; hold; done.
Qed.

Lemma connectToRoom_room_created
    (loc : Location) (w : World) (url tok : js_string) (st : State) :
  name_missing loc = false →
  token w = Response true (TokenData url tok) →
  sdk_import w = Fulfilled →
  roomRef (state_after (connectToRoom loc w st)) = Some (new_room w).
Proof.
  intros Hname Htoken Himport. unfold connectToRoom. exec.
  rewrite Hname, Htoken, Himport. cbn. settle_deliver.
  destruct (connected w); cbn; [|done].
  destruct (media_enabled w); cbn; [|done].
  unfold attach_local_video.
  by destruct (localVideoRef _), (videoTracks w) as [|[]].
Qed.

(** A failure after the room was created (the connection or the request for
    camera and microphone is refused) brings up the error view but keeps the
    room: the reference stays, and [connectToRoom] never disconnects.  If
    the room had reported itself connected, the view still counts as
    connected under the error. *)
Theorem late_failure_keeps_room
    (loc : Location) (w : World) (url tok msg : js_string) (st : State) :
  name_missing loc = false →
  token w = Response true (TokenData url tok) →
  sdk_import w = Fulfilled →
  first_failure loc w = Some msg →
  error (state_after (connectToRoom loc w st)) = Some msg
  ∧ roomRef (state_after (connectToRoom loc w st)) = Some (new_room w)
  ∧ filter (λ e, is_disconnect e = true) (effects_of (connectToRoom loc w st)) = []
  ∧ (connect_events w = [Connected] → connected w = Fulfilled →
     isConnected (state_after (connectToRoom loc w st)) = true).
Proof.
  intros Hname Htoken Himport Hfail.
  split.
  { unfold first_failure in Hfail. rewrite Hname, Htoken, Himport in Hfail.
    unfold connectToRoom. exec. rewrite Hname, Htoken, Himport. cbn.
    settle_deliver.
    destruct (connected w); cbn; [|congruence].
    destruct (media_enabled w); cbn; [done|congruence]. }
  split; [by eapply connectToRoom_room_created|]. split.
  - destruct (connectToRoom_no_disconnect loc w st Logic.I) as [_ Hout].
    induction (effects_of (connectToRoom loc w st)) as [|e out IH]; [done|].
    simpl in Hout. apply andb_prop in Hout as [He Hout].
    rewrite filter_cons_False; [by apply IH|]. by destruct (is_disconnect e).
  - intros Hevs Hconn. unfold first_failure in Hfail.
    rewrite Hname, Htoken, Himport, Hconn in Hfail.
    unfold connectToRoom. exec. rewrite Hname, Htoken, Himport, Hevs, Hconn. cbn.
    destruct (media_enabled w); [done|]. done.
Qed.

Lemma late_failure_keeps_room_witness :
  error (state_after (connectToRoom dana_location camera_refused initial))
    = Some (str "Permission denied")
  ∧ roomRef (state_after (connectToRoom dana_location camera_refused initial))
    = Some 7%nat
  ∧ isConnected (state_after (connectToRoom dana_location camera_refused initial))
    = true.
Proof.
  pose proof (late_failure_keeps_room dana_location camera_refused
                (str "wss://media.example") (str "jwt") (str "Permission denied")
                initial eq_refl eq_refl eq_refl eq_refl)
    as (Herr & Hroom & _ & Hconn).
  split; [exact Herr|]. split; [exact Hroom | exact (Hconn eq_refl eq_refl)].
Defined.

(** Whenever mounting got as far as creating the room, with or without a
    later failure, the clean-up on unmount disconnects that room and clears
    the reference. *)
Theorem unmount_disconnects_created_room
    (loc : Location) (w : World) (url tok : js_string) (st : State) :
  name_missing loc = false →
  token w = Response true (TokenData url tok) →
  sdk_import w = Fulfilled →
  effects_of (unmount loc (state_after (mount loc w st))) = [Disconnect (new_room w)]
  ∧ roomRef (state_after (unmount loc (state_after (mount loc w st)))) = None.
Proof.
  intros Hname Htoken Himport.
  pose proof (connectToRoom_room_created loc w url tok st Hname Htoken Himport)
    as Hroom.
  unfold mount, unmount. rewrite Hname. unfold disconnectFromRoom. exec.
  by rewrite Hroom.
Qed.

Lemma unmount_disconnects_created_room_witness :
  effects_of
    (unmount dana_location (state_after (mount dana_location camera_refused initial)))
  = [Disconnect 7].
Proof.
  exact (proj1 (unmount_disconnects_created_room dana_location camera_refused
                  (str "wss://media.example") (str "jwt") initial
                  eq_refl eq_refl eq_refl)).
Defined.

(** [connectToRoom] is its part before the token request followed, when that
    part did not throw, by its part after. *)
Lemma connectToRoom_split (loc : Location) (w : World) (st : State) :
  connectToRoom loc w st
  = match connectToRoom_begin loc st with
    | Settled st' out => (Normal (), st', out)
    | AwaitingToken st' out =>
        let '(c, st'', out') := connectToRoom_resume w st' in
        (c, st'', out ++ out')
    end.
Proof.
  unfold connectToRoom, connectToRoom_begin, connectToRoom_resume,
    connect_request, connect_resume, connect_failed.
  exec. destruct (name_missing loc); cbn; [done|].
  destruct (token w) as [msg|[] [msg|url tok]]; cbn; try done.
  destruct (sdk_import w); cbn; [|done].
  settle_deliver.
  destruct (connected w); cbn; [|done].
  by destruct (media_enabled w).
Qed.

Lemma first_failure_none (loc : Location) (w : World) :
  first_failure loc w = None →
  name_missing loc = false
  ∧ ∃ url tok,
      token w = Response true (TokenData url tok)
      ∧ sdk_import w = Fulfilled
      ∧ connected w = Fulfilled
      ∧ media_enabled w = Fulfilled.
Proof.
  unfold first_failure. destruct (name_missing loc); [done|].
  destruct (token w) as [msg|[] [msg|url tok]]; try done.
  destruct (sdk_import w), (connected w), (media_enabled w); try done.
  intros _. split; [done|]. by exists url, tok.
Qed.

(** Unmounting while the token request is out cancels nothing.  The
    clean-up finds no room and does nothing; when the token then arrives,
    the rest of [connectToRoom] creates and connects the room all the same,
    and leaves it referenced, with no clean-up left to disconnect it. *)
Theorem unmount_in_flight_leaves_room_open
    (loc : Location) (w : World) (st : State) :
  roomRef st = None →
  first_failure loc w = None →
  ∃ st1 out1,
    connectToRoom_begin loc st = AwaitingToken st1 out1
    ∧ unmount loc st1 = (Normal (), st1, [])
    ∧ roomRef (state_after (connectToRoom_resume w st1)) = Some (new_room w)
    ∧ (∃ url tok, Connect (new_room w) url tok
                    ∈ effects_of (connectToRoom_resume w st1))
    ∧ filter (λ e, is_disconnect e = true)
        (effects_of (connectToRoom_resume w st1)) = [].
Proof.
  intros Hroom Hok.
  assert (Hname : name_missing loc = false).
  { unfold first_failure in Hok. by destruct (name_missing loc). }
  destruct (first_failure_none loc w Hok)
    as (_ & url & tok & Htoken & Himport & _).
  pose proof (connectToRoom_room_created loc w url tok st Hname Htoken Himport)
    as Href.
  assert (Hconnect : Connect (new_room w) url tok
                       ∈ effects_of (connectToRoom loc w st)).
  { unfold connectToRoom. exec. rewrite Hname, Htoken, Himport. cbn.
    settle_deliver.
    destruct (connected w); cbn; [|set_solver].
    destruct (media_enabled w); cbn; set_solver. }
  destruct (connectToRoom_no_disconnect loc w st Logic.I) as [_ Hquiet].
  rewrite connectToRoom_split in Href, Hconnect, Hquiet.
  unfold connectToRoom_begin, connect_request in *. exec.
  rewrite Hname in *. cbn in *.
  eexists _, _. split; [reflexivity|]. split.
  { unfold unmount, disconnectFromRoom. rewrite Hname. exec. cbn.
    by rewrite Hroom. }
  destruct (connectToRoom_resume w _) as [[c st2] out2]. cbn in *.
  split; [done|]. split.
  { exists url, tok. apply elem_of_cons in Hconnect as [[=]|?]. done. }
  clear -Hquiet. induction out2 as [|e out IH]; [done|].
  cbn in Hquiet. apply andb_prop in Hquiet as [He Hout].
  rewrite filter_cons_False; [by apply IH|]. by destruct (is_disconnect e).
Qed.

Lemma unmount_in_flight_leaves_room_open_witness :
  ∃ st1 out1,
    connectToRoom_begin dana_location initial = AwaitingToken st1 out1
    ∧ effects_of (unmount dana_location st1) = []
    ∧ roomRef (state_after (connectToRoom_resume obliging st1)) = Some 7%nat.
Proof.
  destruct (unmount_in_flight_leaves_room_open dana_location obliging initial
              eq_refl eq_refl)
    as (st1 & out1 & Hbegin & Hunmount & Hroom & _).
  exists st1, out1. split; [exact Hbegin|]. split; [|exact Hroom].
  by rewrite Hunmount.
Defined.

(** *** Controls *)

(** The camera control: without a room it does nothing at all.  With a room
    it asks the SDK for the opposite of the displayed state; the display
    follows only when the SDK agrees, and a refusal is logged and leaves the
    display as it was.  It never throws and never touches the microphone
    state. *)
Theorem toggleVideo_contract (call : settled) (st : State) :
  (toggleVideo call st).1.1 = Normal ()
  ∧ isAudioEnabled (state_after (toggleVideo call st)) = isAudioEnabled st
  ∧ (roomRef st = None → toggleVideo call st = (Normal (), st, []))
  ∧ (∀ room, roomRef st = Some room →
       match call with
       | Fulfilled =>
           isVideoEnabled (state_after (toggleVideo call st))
             = negb (isVideoEnabled st)
           ∧ effects_of (toggleVideo call st)
             = [SetCameraEnabled room
                  (isVideoEnabled (state_after (toggleVideo call st)))]
       | Failed msg =>
           isVideoEnabled (state_after (toggleVideo call st)) = isVideoEnabled st
           ∧ effects_of (toggleVideo call st)
             = [SetCameraEnabled room (negb (isVideoEnabled st));
                ConsoleError (str "Failed to toggle video: " ++ msg)]
       end).
Proof.
  unfold toggleVideo. exec.
  destruct (roomRef st) as [room|], call as [|msg]; cbn;
    (split; [done|]; split; [done|]; split; [done|]);
    intros ? [=]; subst; by split.
Qed.

(** Leaving always ends with the navigation back to the join page.  The
    room is disconnected exactly when one is referenced, and the reference is
    cleared, so the clean-up on unmount that may follow does nothing more. *)
Theorem leaveRoom_disconnects_once (loc : Location) (st : State) :
  effects_of (leaveRoom st)
  = match roomRef st with
    | Some room => [Disconnect room; Navigate (str "/")]
    | None => [Navigate (str "/")]
    end
  ∧ roomRef (state_after (leaveRoom st)) = None
  ∧ unmount loc (state_after (leaveRoom st))
    = (Normal (), state_after (leaveRoom st), []).
Proof.
  unfold leaveRoom, unmount, disconnectFromRoom. exec.
  destruct (roomRef st) as [room|] eqn:Hroom; cbn.
  - split; [done|]. split; [done|]. by destruct (name_missing loc).
  - split; [done|]. split; [done|].
    destruct (name_missing loc); [done|]. by rewrite Hroom.
Qed.

End RoomLifecycle.
(** ** From the join page to the room *)

Section Address.
Import Navigation.

Example location_of_dana :
  location_of (str "/meeting?name=Dana%20O'Neil&room=daily-standup-room")
  = {| MeetingRoom.param_name := Some (str "Dana O'Neil");
       MeetingRoom.param_room := Some (str "daily-standup-room") |}.
Proof. vm_compute. reflexivity. Qed.

Example search_of_dana :
  search (str "/meeting?name=Dana%20O'Neil&room=a b#c")
  = str "?name=Dana%20O%27Neil&room=a%20b".
Proof. vm_compute. reflexivity. Qed.

Example location_of_emoji :
  (encodeURIComponent [0x4A; 0xE9; 0xD83D; 0xDE00; 0x20AC] ≫= λ enc,
   MeetingRoom.param_name (location_of (str "/meeting?name=" ++ enc ++ str "&room=r")))
  = Some [0x4A; 0xE9; 0xD83D; 0xDE00; 0x20AC].
Proof. vm_compute. reflexivity. Qed.

Example utf8_decode_overlong : utf8_decode [0xC0; 0x80; 0x41] = [0xFFFD; 0xFFFD; 0x41].
Proof. vm_compute. reflexivity. Qed.

Example utf8_decode_truncated : utf8_decode [0xE2; 0x82; 0x41; 0xF0] = [0xFFFD; 0x41; 0xFFFD].
Proof. vm_compute. reflexivity. Qed.

Lemma all_below_sound (P : N → bool) (depth : nat) (base n : N) :
  all_below depth base P = true →
  base ≤ n → n < base + 2 ^ N.of_nat depth → P n = true.
Proof.
  revert base. induction depth as [|d IH]; intros base; simpl all_below.
  - intros HP Hlo Hhi. change (2 ^ N.of_nat 0) with 1 in Hhi.
    by replace n with base by lia.
  - intros [Hl Hr]%andb_prop Hlo Hhi.
    rewrite Nat2N.inj_succ, N.pow_succ_r' in Hhi.
    destruct (decide (n < base + 2 ^ N.of_nat d)).
    + by apply (IH base).
    + apply (IH (base + 2 ^ N.of_nat d)); [done|lia|lia].
Qed.

(** The scalar values of the basic plane, one by one. *)
Lemma utf8_reads_back_basic : all_below 16 0 utf8_reads_back = true.
Proof. vm_compute. reflexivity. Qed.

(** *** Character classes *)

Ltac classes :=
  unfold uri_unreserved, in_query_set, c0_control_or_space, tab_or_newline,
    is_high_surrogate, is_low_surrogate, is_scalar, plus_to_space, between in *;
  rewrite ?orb_true_iff, ?andb_true_iff, ?orb_false_iff, ?andb_false_iff,
    ?negb_true_iff, ?negb_false_iff in *;
  rewrite ?orb_true_iff, ?andb_true_iff, ?orb_false_iff, ?andb_false_iff,
    ?N.leb_le, ?N.leb_gt, ?N.ltb_lt, ?N.ltb_ge, ?N.eqb_eq, ?N.eqb_neq in *;
  try lia.

Lemma unreserved_ascii (c : N) : uri_unreserved c = true → c < 0x80.
Proof. intros H. classes. Qed.

Lemma unreserved_query (c : N) :
  uri_unreserved c = true → c ≠ 0x27 → in_query_set c = false.
Proof. intros H Hc. classes. Qed.

Lemma unreserved_plain (c : N) :
  uri_unreserved c = true →
  (c =? 0x25) = false ∧ (c =? 0x26) = false ∧ (c =? 0x23) = false
  ∧ (c =? 0x2B) = false ∧ (c =? 0x3D) = false
  ∧ c0_control_or_space c = false ∧ tab_or_newline c = false
  ∧ is_high_surrogate c = false ∧ is_low_surrogate c = false.
Proof. intros H. repeat split; classes. Qed.

(** *** The parser on plain text *)

Lemma scalar_values_plain (l : list N) :
  Forall (λ c, is_high_surrogate c = false ∧ is_low_surrogate c = false) l →
  scalar_values l = l.
Proof.
  induction 1 as [|c l [Hhi Hlo] _ IH]; [done|].
  simpl. by rewrite Hhi, Hlo, IH.
Qed.

Lemma strip_leading_fixed (l : list N) :
  (c0_control_or_space <$> head l) ≠ Some true → strip_leading l = l.
Proof.
  destruct l as [|c l]; [done|]. simpl. by destruct (c0_control_or_space c).
Qed.

Lemma strip_fixed (l : list N) :
  (c0_control_or_space <$> head l) ≠ Some true →
  (c0_control_or_space <$> last l) ≠ Some true →
  strip l = l.
Proof.
  intros Hhead Hlast. unfold strip.
  rewrite (strip_leading_fixed l Hhead), strip_leading_fixed.
  - apply rev_involutive.
  - by rewrite head_rev.
Qed.

Lemma until_fragment_fixed (l : list N) :
  Forall (λ c, (c =? 0x23) = false) l → until_fragment l = l.
Proof. induction 1 as [|c l Hc _ IH]; [done|]. simpl. by rewrite Hc, IH. Qed.

Lemma utf8_ascii (c : N) : c < 0x80 → utf8 c = [c].
Proof. intros Hc. unfold utf8. by rewrite (proj2 (N.ltb_lt c 0x80) Hc). Qed.

Lemma utf8_encode_ascii (l : list N) :
  Forall (λ c, c < 0x80) l → utf8_encode l = l.
Proof.
  intros Hl. unfold utf8_encode. rewrite scalar_values_plain.
  - induction Hl as [|c l Hc _ IH]; [done|].
    by rewrite fmap_cons, concat_cons, IH, (utf8_ascii c Hc).
  - eapply Forall_impl; [exact Hl|]. intros c Hc. simpl in Hc. split; classes.
Qed.

Lemma split_on_plain (sep : N) (a : list N) :
  Forall (λ c, (c =? sep) = false) a → split_on sep a = [a].
Proof.
  induction 1 as [|c a Hc _ IH]; [done|]. simpl. by rewrite Hc, IH.
Qed.

Lemma split_on_at (sep : N) (a b : list N) :
  Forall (λ c, (c =? sep) = false) a →
  split_on sep (a ++ sep :: b) = a :: split_on sep b.
Proof.
  induction 1 as [|c a Hc _ IH]; simpl.
  - by rewrite N.eqb_refl.
  - by rewrite Hc, IH.
Qed.

(** *** Percent-encoding read back *)

Lemma hex_digit_read (d : N) :
  d < 16 →
  unhex (hex_digit d) = Some d
  ∧ in_query_set (hex_digit d) = false
  ∧ plus_to_space (hex_digit d) = hex_digit d
  ∧ hex_digit d < 0x80
  ∧ (hex_digit d =? 0x26) = false.
Proof.
  intros Hd.
  assert (Hall : all_below 4 0
            (λ d, match unhex (hex_digit d) with
                  | Some d' => d' =? d
                  | None => false
                  end
                  && negb (in_query_set (hex_digit d))
                  && (plus_to_space (hex_digit d) =? hex_digit d)
                  && (hex_digit d <? 0x80)
                  && negb (hex_digit d =? 0x26)) = true)
    by (vm_compute; reflexivity).
  apply (all_below_sound _ 4 0 d) in Hall; [|lia|simpl; lia].
  cbv beta in Hall.
  apply andb_prop in Hall as [Hall H5]. apply andb_prop in Hall as [Hall H4].
  apply andb_prop in Hall as [Hall H3]. apply andb_prop in Hall as [H1 H2].
  destruct (unhex (hex_digit d)) as [d'|]; [|done].
  apply N.eqb_eq in H1 as ->.
  split; [done|]. split; [by apply negb_true_iff|].
  split; [by apply N.eqb_eq|]. split; [by apply N.ltb_lt|].
  by apply negb_true_iff.
Qed.

Lemma byte_digits (b : N) : b < 256 → b / 16 < 16 ∧ b mod 16 < 16.
Proof.
  intros Hb. split.
  - apply N.Div0.div_lt_upper_bound. lia.
  - apply N.mod_lt. lia.
Qed.

Lemma percent_decode_percent (b : N) (rest : list N) :
  b < 256 → percent_decode (percent b ++ rest) = b :: percent_decode rest.
Proof.
  intros Hb. destruct (byte_digits b Hb) as [Hhi Hlo].
  destruct (hex_digit_read _ Hhi) as (Hh & _), (hex_digit_read _ Hlo) as (Hl & _).
  unfold percent. cbn [app percent_decode]. rewrite N.eqb_refl, Hh, Hl.
  f_equal. rewrite (N.div_mod b 16) at 3 by lia. lia.
Qed.

Lemma percent_decode_bytes (bs rest : list N) :
  Forall (λ b, b < 256) bs →
  percent_decode (concat (percent <$> bs) ++ rest) = bs ++ percent_decode rest.
Proof.
  induction 1 as [|b bs Hb _ IH]; [done|].
  rewrite fmap_cons, concat_cons, <- app_assoc.
  rewrite (percent_decode_percent b _ Hb), IH. done.
Qed.

(** What the query state and the form parser do to a text before it is
    percent-decoded. *)
Lemma query_text_app (a b : list N) :
  concat (query_encode <$> (a ++ b))
  = concat (query_encode <$> a) ++ concat (query_encode <$> b).
Proof. by rewrite fmap_app, concat_app. Qed.

Lemma query_text_percent (bs : list N) :
  Forall (λ b, b < 256) bs →
  plus_to_space <$> concat (query_encode <$> concat (percent <$> bs))
  = concat (percent <$> bs).
Proof.
  induction 1 as [|b bs Hb _ IH]; [done|].
  rewrite fmap_cons, concat_cons, query_text_app, fmap_app, IH.
  f_equal. destruct (byte_digits b Hb) as [Hhi Hlo].
  destruct (hex_digit_read _ Hhi) as (_ & Hqh & Hph & _).
  destruct (hex_digit_read _ Hlo) as (_ & Hql & Hpl & _).
  unfold percent. cbn [fmap list_fmap concat app]. unfold query_encode at 2 3.
  rewrite Hqh, Hql. change (query_encode 37) with [37].
  cbn [fmap list_fmap concat app]. by rewrite Hph, Hpl.
Qed.

Lemma query_text_unreserved (c : N) (rest : list N) :
  uri_unreserved c = true →
  percent_decode ((plus_to_space <$> query_encode c) ++ rest)
  = c :: percent_decode rest.
Proof.
  intros Hc. destruct (decide (c = 0x27)) as [->|Hne]; [done|].
  destruct (unreserved_plain c Hc) as (Hpct & _ & _ & Hplus & _).
  unfold query_encode. rewrite (unreserved_query c Hc Hne).
  cbn [fmap list_fmap app percent_decode]. unfold plus_to_space.
  by rewrite Hplus, Hpct.
Qed.

(** *** UTF-8 read back *)

(** Joining bits that do not overlap is adding. *)
Lemma land_low (y x k : N) : x < 2 ^ k → N.land (y * 2 ^ k) x = 0.
Proof.
  intros Hx. apply N.bits_inj_0. intros n. rewrite N.land_spec.
  destruct (decide (n < k)) as [Hn|Hn].
  - by rewrite N.mul_pow2_bits_low.
  - destruct (decide (x = 0)) as [->|Hx0]; [by rewrite N.bits_0, andb_false_r|].
    rewrite (N.bits_above_log2 x n), andb_false_r; [done|].
    apply N.lt_le_trans with k; [|lia]. apply N.log2_lt_pow2; lia.
Qed.

Lemma lor_low (y x k : N) : x < 2 ^ k → N.lor (y * 2 ^ k) x = y * 2 ^ k + x.
Proof.
  intros Hx. pose proof (land_low y x k Hx) as Hland.
  by rewrite <- N.lxor_lor, N.add_nocarry_lxor.
Qed.

Lemma continuation_byte (x : N) :
  x < 64 → N.lor 0x80 x = 0x80 + x ∧ N.land (0x80 + x) 0x3F = x.
Proof.
  intros Hx. split.
  - apply (lor_low 2 x 6 Hx).
  - change 0x3F with (N.ones 6). rewrite N.land_ones.
    change 0x80 with (2 * 2 ^ 6). rewrite N.add_comm, N.Div0.mod_add.
    by apply N.mod_small.
Qed.

(** A continuation byte within the bounds adds its six bits. *)
Lemma feed_continuation (d : decoder) (x : N) :
  needed d ≠ 0 → x < 64 → lower d ≤ 0x80 + x → 0x80 + x ≤ upper d →
  feed d (0x80 + x)
  = if needed d =? 1 then ([partial d * 64 + x], idle)
    else ([], {| partial := partial d * 64 + x; needed := needed d - 1;
                 lower := 0x80; upper := 0xBF |}).
Proof.
  intros Hn Hx Hlo Hup. unfold feed, between.
  rewrite (proj2 (N.eqb_neq _ _) Hn).
  rewrite (proj2 (N.leb_le _ _) Hlo), (proj2 (N.leb_le _ _) Hup). cbn [andb].
  rewrite (proj2 (continuation_byte x Hx)), N.shiftl_mul_pow2.
  by rewrite (lor_low (partial d) x 6 Hx).
Qed.

Lemma lead_of_four (a : N) :
  a ≤ 4 →
  N.lor 0xF0 a = 0xF0 + a
  ∧ lead (0xF0 + a)
    = ([], {| partial := a; needed := 3;
              lower := if a =? 0 then 0x90 else 0x80;
              upper := if a =? 4 then 0x8F else 0xBF |}).
Proof.
  intros Ha.
  assert (Hcases : a = 0 ∨ a = 1 ∨ a = 2 ∨ a = 3 ∨ a = 4) by lia.
  destruct Hcases as [->|[->|[->|[->| ->]]]]; by vm_compute.
Qed.

(** The four bytes of a scalar value beyond the basic plane. *)
Lemma utf8_beyond_basic (cp : N) :
  0x10000 ≤ cp → cp < 0x110000 →
  Forall (λ b, b < 256) (utf8 cp) ∧ utf8_run idle (utf8 cp) = ([cp], idle).
Proof.
  intros Hlo Hhi.
  set (a := cp / 262144). set (b := (cp / 4096) mod 64).
  set (c := (cp / 64) mod 64). set (d := cp mod 64).
  assert (Ha : a ≤ 4).
  { apply N.lt_succ_r. apply N.Div0.div_lt_upper_bound. lia. }
  assert (Hb : b < 64) by (apply N.mod_lt; done).
  assert (Hc : c < 64) by (apply N.mod_lt; done).
  assert (Hd : d < 64) by (apply N.mod_lt; done).
  assert (Hcp : cp = ((a * 64 + b) * 64 + c) * 64 + d).
  { pose proof (N.div_mod cp 64 ltac:(done)) as H1.
    pose proof (N.div_mod (cp / 64) 64 ltac:(done)) as H2.
    pose proof (N.div_mod (cp / 64 / 64) 64 ltac:(done)) as H3.
    rewrite !N.Div0.div_div in H2, H3.
    change (64 * 64) with 4096 in H2, H3.
    rewrite ?N.Div0.div_div in H3. change (4096 * 64) with 262144 in H3.
    unfold a, b, c, d. lia. }
  assert (Hbytes : utf8 cp = [0xF0 + a; 0x80 + b; 0x80 + c; 0x80 + d]).
  { unfold utf8.
    rewrite (proj2 (N.ltb_ge cp 0x80)), (proj2 (N.ltb_ge cp 0x800)),
      (proj2 (N.ltb_ge cp 0x10000)) by lia.
    rewrite !N.shiftr_div_pow2. change 0x3F with (N.ones 6). rewrite !N.land_ones.
    change (2 ^ 18) with 262144. change (2 ^ 12) with 4096. change (2 ^ 6) with 64.
    fold a b c d.
    rewrite (proj1 (lead_of_four a Ha)).
    by rewrite (proj1 (continuation_byte b Hb)), (proj1 (continuation_byte c Hc)),
      (proj1 (continuation_byte d Hd)). }
  rewrite Hbytes. split.
  { repeat (apply Forall_cons; split; [lia|]). apply Forall_nil_2. }
  assert (Hfirst : a = 0 → 16 ≤ b).
  { intros Ha0. rewrite Ha0 in Hcp. lia. }
  assert (Hlast : a = 4 → b < 16).
  { intros Ha4. rewrite Ha4 in Hcp. lia. }
  cbn [utf8_run]. change (feed idle (0xF0 + a)) with (lead (0xF0 + a)).
  rewrite (proj2 (lead_of_four a Ha)).
  rewrite feed_continuation; cbn [needed partial lower upper]; [|done|done| |].
  2: { destruct (N.eqb_spec a 0) as [Ha0|_]; [specialize (Hfirst Ha0)|]; lia. }
  2: { destruct (N.eqb_spec a 4) as [Ha4|_]; [specialize (Hlast Ha4)|]; lia. }
  change (3 =? 1) with false. cbv iota. change (3 - 1) with 2.
  rewrite feed_continuation; cbn [needed partial lower upper]; [|done|done|lia|lia].
  change (2 =? 1) with false. cbv iota. change (2 - 1) with 1.
  rewrite feed_continuation; cbn [needed partial lower upper]; [|done|done|lia|lia].
  change (1 =? 1) with true. cbv iota. cbn [app]. by rewrite <- Hcp.
Qed.

Lemma utf8_scalar (cp : N) :
  is_scalar cp = true →
  Forall (λ b, b < 256) (utf8 cp) ∧ utf8_run idle (utf8 cp) = ([cp], idle).
Proof.
  intros Hcp.
  assert (Hlt : cp < 0x110000).
  { unfold is_scalar in Hcp. apply andb_prop in Hcp as [Hcp _]. by apply N.ltb_lt. }
  destruct (decide (cp < 0x10000)) as [Hbasic|Hbeyond].
  2: { apply utf8_beyond_basic; lia. }
  pose proof (all_below_sound _ 16 0 cp utf8_reads_back_basic) as Hall.
  unfold utf8_reads_back in Hall. rewrite Hcp in Hall. simpl negb in Hall.
  rewrite orb_false_l in Hall.
  assert (Hlt' : cp < 0 + 2 ^ N.of_nat 16).
  { change (2 ^ N.of_nat 16) with 65536. lia. }
  specialize (Hall (N.le_0_l cp) Hlt'). apply andb_prop in Hall as [Hbytes Hrun].
  split.
  - apply Forall_forall. intros b Hb.
    rewrite forallb_forall in Hbytes. apply N.ltb_lt, Hbytes.
    by apply list_elem_of_In.
  - destruct (utf8_run idle (utf8 cp)) as [[|cp' [|? ?]] [p n lo up]]; try done.
    repeat (apply andb_prop in Hrun as [Hrun ?]). simpl in *.
    repeat match goal with H : (_ =? _) = true |- _ => apply N.eqb_eq in H end.
    by subst.
Qed.

Lemma utf8_run_app (d : decoder) (a b : list N) :
  utf8_run d (a ++ b)
  = ((utf8_run d a).1 ++ (utf8_run (utf8_run d a).2 b).1,
     (utf8_run (utf8_run d a).2 b).2).
Proof.
  revert d. induction a as [|x a IH]; intros d; simpl.
  - by destruct (utf8_run d b).
  - destruct (feed d x) as [out d1]. rewrite IH.
    destruct (utf8_run d1 a) as [out1 d2]. simpl.
    destruct (utf8_run d2 b) as [out2 d3]. simpl. by rewrite app_assoc.
Qed.

Lemma utf8_run_scalars (l : list N) :
  Forall (λ cp, is_scalar cp = true) l →
  Forall (λ b, b < 256) (concat (utf8 <$> l))
  ∧ utf8_run idle (concat (utf8 <$> l)) = (l, idle).
Proof.
  induction 1 as [|cp l Hcp _ [IHb IHr]]; [done|].
  destruct (utf8_scalar cp Hcp) as [Hb Hr].
  rewrite fmap_cons, concat_cons. split; [by apply Forall_app|].
  rewrite utf8_run_app, Hr. cbn [fst snd]. by rewrite IHr.
Qed.

Lemma code_point_scalar (c d : N) :
  is_high_surrogate c = true → is_low_surrogate d = true →
  is_scalar (code_point c d) = true ∧ utf16 (code_point c d) = [c; d].
Proof.
  intros Hc Hd. unfold code_point, utf16.
  assert (Hc' : 0xD800 ≤ c ≤ 0xDBFF) by classes.
  assert (Hd' : 0xDC00 ≤ d ≤ 0xDFFF) by classes.
  split; [classes|].
  replace ((c - 0xD800) * 0x400 + (d - 0xDC00) + 0x10000 <? 0x10000) with false
    by (symmetry; apply N.ltb_ge; lia).
  replace ((c - 0xD800) * 0x400 + (d - 0xDC00) + 0x10000 - 0x10000)
    with ((d - 0xDC00) + (c - 0xD800) * 0x400) by lia.
  rewrite N.div_add, N.Div0.mod_add by lia.
  rewrite N.div_small, N.mod_small by lia. f_equal; [lia|f_equal; lia].
Qed.

(** *** The cases of [encodeURIComponent] *)

Lemma encodeURIComponent_cases (P : js_string → js_string → Prop) :
  P [] [] →
  (∀ c rest enc,
     uri_unreserved c = true → P rest enc → P (c :: rest) (c :: enc)) →
  (∀ c d rest enc,
     uri_unreserved c = false →
     is_high_surrogate c = true → is_low_surrogate d = true →
     P rest enc → P (c :: d :: rest) (percent_encode (code_point c d) ++ enc)) →
  (∀ c rest enc,
     uri_unreserved c = false →
     is_high_surrogate c = false → is_low_surrogate c = false → c < 0x10000 →
     P rest enc → P (c :: rest) (percent_encode c ++ enc)) →
  ∀ s enc,
    Forall (λ c, c < 0x10000) s → encodeURIComponent s = Some enc → P s enc.
Proof.
  intros Hnil Hplain Hpair Hother s.
  remember (length s) as n eqn:Hn. revert s Hn.
  induction (lt_wf n) as [n _ IH]. intros s -> enc Hs.
  assert (IH' : ∀ t enc', (length t < length s)%nat →
                          Forall (λ c, c < 0x10000) t →
                          encodeURIComponent t = Some enc' → P t enc').
  { intros t enc' Hlen. by apply (IH (length t)). }
  clear IH. destruct s as [|c rest]; simpl.
  { by intros [= <-]. }
  apply Forall_cons in Hs as [Hc Hrest].
  destruct (uri_unreserved c) eqn:Hun.
  { destruct (encodeURIComponent rest) as [enc'|] eqn:Henc; [|done].
    intros [= <-]. apply Hplain; [done|]. apply IH'; [simpl; lia|done|done]. }
  destruct (is_low_surrogate c) eqn:Hlow; [done|].
  destruct (is_high_surrogate c) eqn:Hhigh.
  - destruct rest as [|d rest']; [done|].
    destruct (is_low_surrogate d) eqn:Hd; [|done].
    apply Forall_cons in Hrest as [_ Hrest'].
    destruct (encodeURIComponent rest') as [enc'|] eqn:Henc; [|done].
    intros [= <-]. apply Hpair; try done. apply IH'; [simpl; lia|done|done].
  - destruct (encodeURIComponent rest) as [enc'|] eqn:Henc; [|done].
    intros [= <-]. apply Hother; try done. apply IH'; [simpl; lia|done|done].
Qed.

Lemma hex_digit_unreserved (d : N) : d < 16 → uri_unreserved (hex_digit d) = true.
Proof.
  intros Hd.
  assert (Hall : all_below 4 0 (λ d, uri_unreserved (hex_digit d)) = true)
    by (vm_compute; reflexivity).
  apply (all_below_sound _ 4 0 d) in Hall; [done|lia|simpl; lia].
Qed.

Lemma plain_scalar (c : N) :
  is_high_surrogate c = false → is_low_surrogate c = false → c < 0x10000 →
  is_scalar c = true.
Proof. intros Hhi Hlo Hc. classes. Qed.

Lemma percent_encode_alphabet (cp : N) :
  is_scalar cp = true →
  Forall (λ c, uri_unreserved c = true ∨ c = 0x25) (percent_encode cp).
Proof.
  intros Hcp. destruct (utf8_scalar cp Hcp) as [Hbytes _].
  unfold percent_encode. induction Hbytes as [|b bs Hb _ IH]; [done|].
  rewrite fmap_cons, concat_cons. apply Forall_app. split; [|done].
  destruct (byte_digits b Hb) as [Hhi Hlo].
  unfold percent.
  apply Forall_cons. split; [by right|].
  apply Forall_cons. split; [left; by apply hex_digit_unreserved|].
  apply Forall_cons. split; [left; by apply hex_digit_unreserved|].
  apply Forall_nil_2.
Qed.

Lemma encoded_safe (s enc : js_string) :
  Forall (λ c, c < 0x10000) s →
  encodeURIComponent s = Some enc →
  Forall (λ c, uri_unreserved c = true ∨ c = 0x25) enc.
Proof.
  revert s enc. apply encodeURIComponent_cases.
  - done.
  - intros c rest enc Hc IH. constructor; [by left|done].
  - intros c d rest enc _ Hc Hd IH. apply Forall_app. split; [|done].
    by apply percent_encode_alphabet, code_point_scalar.
  - intros c rest enc _ Hhi Hlo Hc IH. apply Forall_app. split; [|done].
    by apply percent_encode_alphabet, plain_scalar.
Qed.

(** What [encodeURIComponent] makes of the participant name is made of
    unreserved characters and percent signs only (the hexadecimal digits are
    unreserved): no [&], [=], [#], [?], [+] or space is left in it, so the
    name cannot end the name parameter of the address or add another. *)
Theorem encodeURIComponent_alphabet (s enc : js_string) :
  Forall (λ c, c < 0x10000) s →
  encodeURIComponent s = Some enc →
  Forall (λ c, uri_unreserved c = true ∨ c = 0x25) enc
  ∧ Forall (λ c, c ∉ [0x26; 0x3D; 0x23; 0x3F; 0x2B; 0x20]) enc.
Proof.
  intros Hs Henc. pose proof (encoded_safe s enc Hs Henc) as Hsafe.
  split; [done|]. eapply Forall_impl; [exact Hsafe|].
  intros c Hc Hin.
  assert (Hnot : (c =? 0x26) = false ∧ (c =? 0x3D) = false ∧ (c =? 0x23) = false
                 ∧ (c =? 0x3F) = false ∧ (c =? 0x2B) = false ∧ (c =? 0x20) = false).
  { destruct Hc as [Hc| ->]; [|done]. repeat split; classes. }
  destruct Hnot as (? & ? & ? & ? & ? & ?).
  repeat (apply elem_of_cons in Hin as [->|Hin]; [done|]).
  by apply not_elem_of_nil in Hin.
Qed.

Lemma encodeURIComponent_alphabet_witness :
  Forall (λ c, c ∉ [0x26; 0x3D; 0x23; 0x3F; 0x2B; 0x20])
    (str "a%26room%3Devil%20%23%F0%9F%98%80").
Proof.
  exact (proj2 (encodeURIComponent_alphabet
                  (str "a&room=evil #" ++ [0xD83D; 0xDE00])
                  (str "a%26room%3Devil%20%23%F0%9F%98%80")
                  ltac:(repeat constructor) eq_refl)).
Defined.

(** *** A component read back *)

Lemma encoded_bytes (s enc : js_string) :
  Forall (λ c, c < 0x10000) s →
  encodeURIComponent s = Some enc →
  percent_decode (plus_to_space <$> concat (query_encode <$> enc))
  = utf8_encode s.
Proof.
  revert s enc. apply encodeURIComponent_cases.
  - done.
  - intros c rest enc Hc IH.
    destruct (unreserved_plain c Hc) as (_ & _ & _ & _ & _ & _ & _ & Hhi & Hlo).
    rewrite fmap_cons, concat_cons, fmap_app, query_text_unreserved, IH by done.
    unfold utf8_encode. simpl scalar_values. rewrite Hhi, Hlo.
    rewrite fmap_cons, concat_cons.
    by rewrite (utf8_ascii c (unreserved_ascii c Hc)).
  - intros c d rest enc _ Hc Hd IH.
    destruct (code_point_scalar c d Hc Hd) as [Hcp _].
    destruct (utf8_scalar _ Hcp) as [Hbytes _].
    rewrite query_text_app, fmap_app. unfold percent_encode.
    rewrite query_text_percent, percent_decode_bytes, IH by done.
    unfold utf8_encode. simpl scalar_values. by rewrite Hc, Hd.
  - intros c rest enc _ Hhi Hlo Hc IH.
    destruct (utf8_scalar _ (plain_scalar c Hhi Hlo Hc)) as [Hbytes _].
    rewrite query_text_app, fmap_app. unfold percent_encode.
    rewrite query_text_percent, percent_decode_bytes, IH by done.
    unfold utf8_encode. simpl scalar_values. by rewrite Hhi, Hlo.
Qed.

Lemma encodable_scalars (s enc : js_string) :
  Forall (λ c, c < 0x10000) s →
  encodeURIComponent s = Some enc →
  Forall (λ cp, is_scalar cp = true) (scalar_values s)
  ∧ concat (utf16 <$> scalar_values s) = s.
Proof.
  revert s enc. apply encodeURIComponent_cases.
  - done.
  - intros c rest enc Hc [IHs IHu].
    destruct (unreserved_plain c Hc) as (_ & _ & _ & _ & _ & _ & _ & Hhi & Hlo).
    pose proof (unreserved_ascii c Hc) as Hascii.
    simpl scalar_values. rewrite Hhi, Hlo. split.
    + constructor; [|done]. apply plain_scalar; [done|done|lia].
    + rewrite fmap_cons, concat_cons, IHu. unfold utf16.
      by rewrite (proj2 (N.ltb_lt c 0x10000)) by lia.
  - intros c d rest enc _ Hc Hd [IHs IHu].
    destruct (code_point_scalar c d Hc Hd) as [Hcp Hpair].
    simpl scalar_values. rewrite Hc, Hd. split; [by constructor|].
    by rewrite fmap_cons, concat_cons, IHu, Hpair.
  - intros c rest enc _ Hhi Hlo Hc [IHs IHu].
    simpl scalar_values. rewrite Hhi, Hlo. split.
    + constructor; [|done]. by apply plain_scalar.
    + rewrite fmap_cons, concat_cons, IHu. unfold utf16.
      by rewrite (proj2 (N.ltb_lt c 0x10000)) by lia.
Qed.

(** An encoded name, as it stands in the query of the address, is read back
    by [URLSearchParams] as the name. *)
Lemma decode_encoded (s enc : js_string) :
  Forall (λ c, c < 0x10000) s →
  encodeURIComponent s = Some enc →
  decode_component (concat (query_encode <$> enc)) = s.
Proof.
  intros Hs Henc. unfold decode_component, utf8_decode.
  rewrite (encoded_bytes s enc Hs Henc). unfold utf8_encode.
  destruct (encodable_scalars s enc Hs Henc) as [Hscalars Hback].
  destruct (utf8_run_scalars _ Hscalars) as [_ ->].
  simpl. by rewrite app_nil_r.
Qed.

Lemma decode_unreserved (room : js_string) :
  forallb uri_unreserved room = true →
  decode_component (concat (query_encode <$> room)) = room.
Proof.
  intros Hroom. apply (decode_encoded room room).
  - apply Forall_forall. intros c Hc. rewrite forallb_forall in Hroom.
    pose proof (unreserved_ascii c (Hroom c (proj1 (list_elem_of_In _ _) Hc))). lia.
  - induction room as [|c room IH]; [done|]. simpl in *.
    apply andb_prop in Hroom as [Hc Hroom]. by rewrite Hc, (IH Hroom).
Qed.

(** *** The address of the room view *)

Lemma query_encode_ascii (c : N) :
  c < 0x80 →
  Forall (λ x, x < 0x80 ∧ ((x =? 0x26) = false ∨ c = 0x26)) (query_encode c).
Proof.
  intros Hc.
  assert (Hall : all_below 7 0
            (λ c, forallb (λ x, (x <? 0x80) && (negb (x =? 0x26) || (c =? 0x26)))
                    (query_encode c)) = true)
    by (vm_compute; reflexivity).
  apply (all_below_sound _ 7 0 c) in Hall; [|lia|simpl; lia].
  cbv beta in Hall. rewrite forallb_forall in Hall.
  apply Forall_forall. intros x Hx%list_elem_of_In.
  apply Hall, andb_prop in Hx as [Hlt Hamp]. split; [by apply N.ltb_lt|].
  apply orb_prop in Hamp as [Hamp|Hamp].
  - left. by apply negb_true_iff.
  - right. by apply N.eqb_eq.
Qed.

Lemma query_text_ascii (l : list N) :
  Forall (λ c, c < 0x80) l →
  Forall (λ c, c < 0x80) (concat (query_encode <$> l)).
Proof.
  induction 1 as [|c l Hc _ IH]; [apply Forall_nil_2|].
  rewrite fmap_cons, concat_cons. apply Forall_app. split; [|done].
  eapply Forall_impl; [apply (query_encode_ascii c Hc)|]. by intros x [? _].
Qed.

Lemma query_text_no_ampersand (l : list N) :
  Forall (λ c, c < 0x80 ∧ (c =? 0x26) = false) l →
  Forall (λ c, (c =? 0x26) = false) (concat (query_encode <$> l)).
Proof.
  induction 1 as [|c l [Hc Hamp] _ IH]; [apply Forall_nil_2|].
  rewrite fmap_cons, concat_cons. apply Forall_app. split; [|done].
  eapply Forall_impl; [apply (query_encode_ascii c Hc)|].
  intros x [_ [?| ->]]; done.
Qed.

Lemma search_of_meeting_url (enc room : js_string) :
  Forall (λ c, c < 0x80 ∧ c0_control_or_space c = false ∧ (c =? 0x23) = false) enc →
  Forall (λ c, c < 0x80 ∧ c0_control_or_space c = false ∧ (c =? 0x23) = false) room →
  search (JoinMeetingPage.meeting_url enc room)
  = 0x3F :: str "name=" ++ concat (query_encode <$> enc)
       ++ str "&room=" ++ concat (query_encode <$> room).
Proof.
  intros Henc Hroom. unfold search, JoinMeetingPage.meeting_url.
  set (rest := enc ++ str "&room=" ++ room).
  assert (Hrest : Forall (λ c, c < 0x80 ∧ c0_control_or_space c = false
                               ∧ (c =? 0x23) = false) rest).
  { apply Forall_app. split; [done|]. apply Forall_app. split; [|done].
    repeat (apply Forall_cons; split; [done|]). apply Forall_nil_2. }
  assert (Hall : Forall (λ c, c < 0x80 ∧ c0_control_or_space c = false
                              ∧ (c =? 0x23) = false)
                   (str "/meeting?name=" ++ rest)).
  { apply Forall_app. split; [|done].
    repeat (apply Forall_cons; split; [done|]). apply Forall_nil_2. }
  rewrite scalar_values_plain.
  2: { eapply Forall_impl; [exact Hall|]. intros c (Hc & _ & _). split; classes. }
  rewrite strip_fixed; [|done|].
  2: { destruct (last (str "/meeting?name=" ++ rest)) as [x|] eqn:Hlast; [|done].
       apply last_Some_elem_of in Hlast.
       rewrite Forall_forall in Hall. destruct (Hall x Hlast) as (_ & Hx & _).
       simpl. by rewrite Hx. }
  rewrite filter_keeps_all.
  2: { eapply Forall_impl; [exact Hall|]. intros c (_ & Hc & _). simpl. classes. }
  change (raw_query (str "/meeting?name=" ++ rest))
    with (Some (0x6E :: str "ame=" ++ until_fragment rest)).
  rewrite until_fragment_fixed.
  2: { eapply Forall_impl; [exact Hrest|]. by intros c (_ & _ & Hc). }
  cbv iota. f_equal.
  change (0x6E :: str "ame=" ++ rest) with (str "name=" ++ rest).
  unfold rest. by rewrite !query_text_app.
Qed.

(** The first two pairs of a search string of the shape the join page
    produces, whatever follows a further [&]. *)
Lemma parse_query_of_search (a b tail : list N) :
  Forall (λ c, c < 0x80 ∧ (c =? 0x26) = false) a →
  Forall (λ c, c < 0x80 ∧ (c =? 0x26) = false) b →
  Forall (λ c, c < 0x80) tail →
  tail = [] ∨ (∃ more, tail = 0x26 :: more) →
  ∃ others,
    parse_query (0x3F :: str "name=" ++ a ++ str "&room=" ++ b ++ tail)
    = (str "name", decode_component a) :: (str "room", decode_component b)
        :: others.
Proof.
  intros Ha Hb Htail Hshape. unfold parse_query.
  change ((0x3F =? 0x3F)) with true. cbv iota.
  rewrite utf8_encode_ascii.
  2: { apply Forall_app. split; [repeat constructor|].
       apply Forall_app. split; [eapply Forall_impl; [exact Ha|]; by intros c [? _]|].
       apply Forall_app. split; [repeat constructor|].
       apply Forall_app. split; [eapply Forall_impl; [exact Hb|]; by intros c [? _]|].
       done. }
  change (str "&room=" ++ b ++ tail) with (0x26 :: (str "room=" ++ b) ++ tail).
  rewrite app_assoc, split_on_at.
  2: { apply Forall_app. split; [repeat constructor|].
       eapply Forall_impl; [exact Ha|]. by intros c [_ ?]. }
  assert (Hsecond : ∃ rest, split_on 0x26 ((str "room=" ++ b) ++ tail)
                            = (str "room=" ++ b) :: rest).
  { assert (Hplain : Forall (λ c, (c =? 0x26) = false) (str "room=" ++ b)).
    { apply Forall_app. split; [repeat constructor|].
      eapply Forall_impl; [exact Hb|]. by intros c [_ ?]. }
    destruct Hshape as [->|[more ->]].
    - exists []. by rewrite app_nil_r, split_on_plain.
    - eexists. by rewrite split_on_at. }
  destruct Hsecond as [rest ->].
  rewrite filter_cons_True by done. rewrite filter_cons_True by done.
  rewrite !fmap_cons. eexists. reflexivity.
Qed.

Lemma get_name_and_room (name room : js_string) (others : list (js_string * js_string)) :
  get (str "name") ((str "name", name) :: (str "room", room) :: others) = Some name
  ∧ get (str "room") ((str "name", name) :: (str "room", room) :: others) = Some room.
Proof.
  split; cbn [get].
  - by rewrite bool_decide_eq_true_2.
  - rewrite bool_decide_eq_false_2 by (vm_compute; discriminate).
    by rewrite bool_decide_eq_true_2.
Qed.

Lemma encoded_plain (s enc : js_string) :
  Forall (λ c, c < 0x10000) s →
  encodeURIComponent s = Some enc →
  Forall (λ c, c < 0x80 ∧ c0_control_or_space c = false ∧ (c =? 0x23) = false
               ∧ (c =? 0x26) = false) enc.
Proof.
  intros Hs Henc. pose proof (encoded_safe s enc Hs Henc) as Hsafe.
  eapply Forall_impl; [exact Hsafe|]. intros c [Hc| ->]; [|done].
  pose proof (unreserved_ascii c Hc).
  destruct (unreserved_plain c Hc) as (_ & ? & ? & _ & _ & ? & _). done.
Qed.

Lemma unreserved_text_plain (room : js_string) :
  forallb uri_unreserved room = true →
  Forall (λ c, c < 0x80 ∧ c0_control_or_space c = false ∧ (c =? 0x23) = false
               ∧ (c =? 0x26) = false) room.
Proof.
  intros Hroom. apply Forall_forall. intros c Hc%list_elem_of_In.
  rewrite forallb_forall in Hroom. specialize (Hroom c Hc).
  pose proof (unreserved_ascii c Hroom).
  destruct (unreserved_plain c Hroom) as (_ & ? & ? & _ & _ & ? & _). done.
Qed.

Lemma room_of_truthy (mi : option JoinMeetingPage.MeetingInfo) :
  truthy (JoinMeetingPage.room_of mi) = true.
Proof.
  unfold JoinMeetingPage.room_of, or_else.
  destruct (mi ≫= JoinMeetingPage.roomName) as [s|]; [|done].
  by destruct (truthy s) eqn:Hs.
Qed.

(** The address the join page navigates to, with an encoded name [enc] of
    [name] and a room that is [before], possibly followed by [&] and more:
    the room view reads back the name, and the room up to the [&]. *)
Lemma location_of_meeting_url (name enc before tail : js_string) :
  Forall (λ c, c < 0x10000) name →
  encodeURIComponent name = Some enc →
  forallb uri_unreserved before = true →
  tail = [] ∨ (∃ more, tail = 0x26 :: more ∧ forallb uri_unreserved more = true) →
  MeetingRoom.param_name
    (location_of (JoinMeetingPage.meeting_url enc (before ++ tail))) = Some name
  ∧ MeetingRoom.param_room
      (location_of (JoinMeetingPage.meeting_url enc (before ++ tail))) = Some before.
Proof.
  intros Hname Henc Hbefore Htail.
  pose proof (encoded_plain name enc Hname Henc) as Hplain.
  pose proof (unreserved_text_plain before Hbefore) as Hroom.
  assert (Htail' : Forall (λ c, c < 0x80 ∧ c0_control_or_space c = false
                                ∧ (c =? 0x23) = false) tail).
  { destruct Htail as [->|(more & -> & Hmore)]; [apply Forall_nil_2|].
    apply Forall_cons. split; [done|].
    eapply Forall_impl; [exact (unreserved_text_plain more Hmore)|].
    by intros c (? & ? & ? & _). }
  unfold location_of. rewrite search_of_meeting_url.
  2: { eapply Forall_impl; [exact Hplain|]. by intros c (? & ? & ? & _). }
  2: { apply Forall_app. split; [|done].
       eapply Forall_impl; [exact Hroom|]. by intros c (? & ? & ? & _). }
  rewrite query_text_app.
  destruct (parse_query_of_search
              (concat (query_encode <$> enc)) (concat (query_encode <$> before))
              (concat (query_encode <$> tail))) as [others ->].
  - apply Forall_forall. intros x Hx. split.
    + assert (H : Forall (λ c, c < 0x80) (concat (query_encode <$> enc))).
      { apply query_text_ascii. eapply Forall_impl; [exact Hplain|].
        by intros c (? & _). }
      rewrite Forall_forall in H. by apply H.
    + assert (H : Forall (λ c, (c =? 0x26) = false) (concat (query_encode <$> enc))).
      { apply query_text_no_ampersand. eapply Forall_impl; [exact Hplain|].
        by intros c (? & _ & _ & ?). }
      rewrite Forall_forall in H. by apply H.
  - apply Forall_forall. intros x Hx. split.
    + assert (H : Forall (λ c, c < 0x80) (concat (query_encode <$> before))).
      { apply query_text_ascii. eapply Forall_impl; [exact Hroom|].
        by intros c (? & _). }
      rewrite Forall_forall in H. by apply H.
    + assert (H : Forall (λ c, (c =? 0x26) = false)
                    (concat (query_encode <$> before))).
      { apply query_text_no_ampersand. eapply Forall_impl; [exact Hroom|].
        by intros c (? & _ & _ & ?). }
      rewrite Forall_forall in H. by apply H.
  - apply query_text_ascii. eapply Forall_impl; [exact Htail'|]. by intros c (? & _).
  - destruct Htail as [->|(more & -> & _)]; [by left|]. right.
    rewrite fmap_cons, concat_cons. by eexists.
  - cbn [MeetingRoom.param_name MeetingRoom.param_room].
    destruct (get_name_and_room
                (decode_component (concat (query_encode <$> enc)))
                (decode_component (concat (query_encode <$> before))) others)
      as [-> ->].
    by rewrite (decode_encoded name enc Hname Henc), (decode_unreserved before Hbefore).
Qed.

Lemma joinMeeting_href
    (st : JoinMeetingPage.State) (p : JoinMeetingPage.Participant)
    (r : JoinMeetingPage.reply JoinMeetingPage.ValidationResult) (href : js_string) :
  JoinMeetingPage.validationResult st ≫= JoinMeetingPage.participant = Some p →
  (JoinMeetingPage.joinMeeting r st).2 = [JoinMeetingPage.Navigate href] →
  ∃ enc,
    encodeURIComponent (JoinMeetingPage.p_name p) = Some enc
    ∧ href = JoinMeetingPage.meeting_url enc
               (JoinMeetingPage.room_of (JoinMeetingPage.meetingInfo st)).
Proof.
  intros Hp Hnav. unfold JoinMeetingPage.joinMeeting in Hnav.
  destruct (negb (JoinMeetingPage.has_valid_result st)).
  - pose proof (validateParticipant_no_navigation r st) as Hquiet.
    rewrite Hnav in Hquiet. done.
  - rewrite Hp in Hnav.
    destruct (encodeURIComponent (JoinMeetingPage.p_name p)) as [enc|]; [|done].
    exists enc. split; [done|]. by injection Hnav as <-.
Qed.

(** The name the join page validated is the name the room view reads from
    its address, code unit for code unit, whatever characters it has; and a
    room made of unreserved characters arrives as it is.  (The name goes
    through [encodeURIComponent]; the room is put in the address raw.) *)
Theorem address_carries_name_and_room
    (st : JoinMeetingPage.State) (p : JoinMeetingPage.Participant)
    (r : JoinMeetingPage.reply JoinMeetingPage.ValidationResult) (href : js_string) :
  JoinMeetingPage.validationResult st ≫= JoinMeetingPage.participant = Some p →
  Forall (λ c, c < 0x10000) (JoinMeetingPage.p_name p) →
  forallb uri_unreserved (JoinMeetingPage.room_of (JoinMeetingPage.meetingInfo st))
    = true →
  (JoinMeetingPage.joinMeeting r st).2 = [JoinMeetingPage.Navigate href] →
  MeetingRoom.participantName (location_of href) = JoinMeetingPage.p_name p
  ∧ MeetingRoom.roomName (location_of href)
    = JoinMeetingPage.room_of (JoinMeetingPage.meetingInfo st).
Proof.
  intros Hp Hname Hroom Hnav.
  destruct (joinMeeting_href st p r href Hp Hnav) as (enc & Henc & ->).
  destruct (location_of_meeting_url (JoinMeetingPage.p_name p) enc
              (JoinMeetingPage.room_of (JoinMeetingPage.meetingInfo st)) []
              Hname Henc Hroom (or_introl eq_refl)) as [Hn Hr].
  rewrite app_nil_r in Hn, Hr.
  unfold MeetingRoom.participantName, MeetingRoom.roomName. rewrite Hn, Hr.
  unfold or_else. rewrite room_of_truthy.
  split; [|done]. by destruct (JoinMeetingPage.p_name p).
Qed.

Lemma address_carries_name_and_room_witness :
  MeetingRoom.participantName
    (location_of
       (str "/meeting?name=Zo%C3%AB%20O'Neil%20%26%20co%20%F0%9F%98%80&room=standup"))
  = str "Zo" ++ [0xEB] ++ str " O'Neil & co " ++ [0xD83D; 0xDE00]
  ∧ MeetingRoom.roomName
      (location_of
         (str "/meeting?name=Zo%C3%AB%20O'Neil%20%26%20co%20%F0%9F%98%80&room=standup"))
    = str "standup".
Proof.
  apply (address_carries_name_and_room
           (JoinMeetingPage.setValidationResult (Some JoinMeetingPage.zoe_valid)
              JoinMeetingPage.dana_typed)
           JoinMeetingPage.zoe JoinMeetingPage.Rejected).
  - reflexivity.
  - repeat constructor.
  - reflexivity.
  - reflexivity.
Defined.

(** The room identifier goes into the address as it is, so an [&] in it
    ends the room parameter: the room view reads the identifier only up to
    the [&], or falls back to the default room when nothing stands before
    it.  The name is read back whole all the same. *)
Theorem room_is_cut_at_ampersand
    (st : JoinMeetingPage.State) (p : JoinMeetingPage.Participant)
    (r : JoinMeetingPage.reply JoinMeetingPage.ValidationResult)
    (href before after : js_string) :
  JoinMeetingPage.validationResult st ≫= JoinMeetingPage.participant = Some p →
  Forall (λ c, c < 0x10000) (JoinMeetingPage.p_name p) →
  JoinMeetingPage.room_of (JoinMeetingPage.meetingInfo st) = before ++ 0x26 :: after →
  forallb uri_unreserved before = true →
  forallb uri_unreserved after = true →
  (JoinMeetingPage.joinMeeting r st).2 = [JoinMeetingPage.Navigate href] →
  MeetingRoom.participantName (location_of href) = JoinMeetingPage.p_name p
  ∧ MeetingRoom.roomName (location_of href)
    = if truthy before then before else str "daily-standup-room".
Proof.
  intros Hp Hname Hroom Hbefore Hafter Hnav.
  destruct (joinMeeting_href st p r href Hp Hnav) as (enc & Henc & ->).
  rewrite Hroom.
  destruct (location_of_meeting_url (JoinMeetingPage.p_name p) enc before
              (0x26 :: after) Hname Henc Hbefore) as [Hn Hr].
  { right. by exists after. }
  unfold MeetingRoom.participantName, MeetingRoom.roomName. rewrite Hn, Hr.
  unfold or_else. split; [|done]. by destruct (JoinMeetingPage.p_name p).
Qed.

Lemma room_is_cut_at_ampersand_witness :
  MeetingRoom.roomName (location_of (str "/meeting?name=Dana&room=R&D")) = str "R".
Proof.
  exact (proj2 (room_is_cut_at_ampersand
                  (JoinMeetingPage.setValidationResult
                     (Some JoinMeetingPage.dana_valid)
                     (JoinMeetingPage.setMeetingInfo
                        (Some JoinMeetingPage.research_active)
                        JoinMeetingPage.dana_typed))
                  JoinMeetingPage.dana JoinMeetingPage.Rejected
                  (str "/meeting?name=Dana&room=R&D") (str "R") (str "D")
                  eq_refl ltac:(repeat constructor) eq_refl eq_refl eq_refl eq_refl)).
Defined.

End Address.
